(** * Pinning: the result splicer of the search engine

    A shallow embedding of [applyPinningRules]
    (packages/orama/src/components/pinning-manager.ts) and the properties of
    the pinning specification that concern it.

    Conventions of the embedding:
    - an [InternalDocumentID] and a promotion's [position] are natural
      numbers (the data model fixes positions as non-negative integers);
    - a score is an integer ([Z]); the scores the splicer computes itself are
      [BASE_PIN_SCORE - position] and [0];
    - a JavaScript [Map] whose iteration order the code relies on is an
      association list in insertion order ([Map_set], [Map_get]);
    - a JavaScript [Set] only tested for membership is a [gset];
    - [Array.prototype.sort] is stable: it is embedded as a stable insertion
      sort, which returns the same array as any other stable sort. *)

From Stdlib Require Import ZArith Ascii String.
From stdpp Require Import gmap strings list sorting.

(** ** Data model *)

Definition InternalDocumentID := nat.
Definition Document := string.
Definition TokenScore : Type := InternalDocumentID * Z.

Inductive Anchoring := anchor_is | anchor_starts_with | anchor_ends_with | anchor_contains.

Record Condition := mkCondition { anchoring : Anchoring; pattern : string }.

Record Promotion := mkPromotion { doc_id : string; position : nat }.

Record Consequence := mkConsequence { promote : list Promotion }.

Record PinRule := mkPinRule {
  rule_id : string;
  conditions : list Condition;
  consequence : Consequence
}.

(** The rule store: the rules in the iteration order of the store. *)
Record PinningStore := mkPinningStore { rules : list PinRule }.

(** The part of the engine the splicer reads: the external-to-internal id
    table and the documents by internal id. *)
Record Orama := mkOrama {
  internalDocumentIDStore : gmap string InternalDocumentID;
  docs : gmap InternalDocumentID Document
}.

(** Modelled from the spec: [getInternalDocumentId] lives in
    internal-document-id-store.ts, which is not part of the sources at hand.
    The spec gives it as [toInternalId(externalDocId) -> internalId or
    absent], a plain map read. *)
Definition getInternalDocumentId (store : gmap string InternalDocumentID)
    (id : string) : option InternalDocumentID :=
  store !! id.

(** Modelled from the spec: [documentsStore.get] belongs to the document
    store, which is not part of the sources at hand. The spec gives it as a
    lookup of a document by internal id ([docExists]). *)
Definition documentsStore_get (d : gmap InternalDocumentID Document)
    (internalId : InternalDocumentID) : option Document :=
  d !! internalId.

(** ** The rule matcher *)

Definition lower_ascii (c : ascii) : ascii :=
  let n := nat_of_ascii c in
  if (65 <=? n)%nat && (n <=? 90)%nat then ascii_of_nat (n + 32) else c.

Fixpoint toLowerCase (s : string) : string :=
  match s with
  | EmptyString => EmptyString
  | String c s' => String (lower_ascii c) (toLowerCase s')
  end.

Definition is_space (c : ascii) : bool :=
  let n := nat_of_ascii c in
  (n =? 32)%nat || ((9 <=? n)%nat && (n <=? 13)%nat).

Fixpoint whitespace_only (s : string) : bool :=
  match s with
  | EmptyString => true
  | String c s' => is_space c && whitespace_only s'
  end.

Fixpoint str_ends_with (p q : string) : bool :=
  String.eqb p q ||
  match q with
  | EmptyString => false
  | String _ q' => str_ends_with p q'
  end.

Fixpoint str_contains (p q : string) : bool :=
  String.prefix p q ||
  match q with
  | EmptyString => false
  | String _ q' => str_contains p q'
  end.

Definition condition_matches (query : string) (c : Condition) : bool :=
  let p := toLowerCase c.(pattern) in
  match c.(anchoring) with
  | anchor_is => String.eqb query p
  | anchor_starts_with => String.prefix p query
  | anchor_ends_with => str_ends_with p query
  | anchor_contains => str_contains p query
  end.

(** Modelled from the spec: [getMatchingRules] lives in pinning.ts, which is
    not part of the sources at hand. The spec (Rule Matcher): an absent,
    empty or whitespace-only query matches nothing; query and patterns are
    lowercased; a rule matches iff all its conditions hold; the rules come
    back in the order the store iterates them. Case folding is done on the
    ASCII letters. *)
Definition getMatchingRules (pinningStore : PinningStore)
    (searchTerm : option string) : list PinRule :=
  match searchTerm with
  | None => []
  | Some term =>
      if whitespace_only term then []
      else
        let query := toLowerCase term in
        List.filter (fun rule => forallb (condition_matches query) rule.(conditions))
          pinningStore.(rules)
  end.

(** ** JavaScript containers *)

Section js_map.
Context {K V : Type} `{EqDecision K}.

(** [Map.prototype.set]: an existing key keeps its place in the iteration
    order and takes the new value; a new key goes to the end. *)
Fixpoint Map_set (k : K) (v : V) (m : list (K * V)) : list (K * V) :=
  match m with
  | [] => [(k, v)]
  | (k', v') :: m' =>
      if decide (k = k') then (k, v) :: m' else (k', v') :: Map_set k v m'
  end.

(** [Map.prototype.get]; [None] is [undefined]. *)
Fixpoint Map_get (k : K) (m : list (K * V)) : option V :=
  match m with
  | [] => None
  | (k', v') :: m' => if decide (k = k') then Some v' else Map_get k m'
  end.
End js_map.

Section js_sort.
Context {A : Type} (le : A → A → bool).

(** [le a b] stands for [compare(a, b) <= 0]. *)
Fixpoint sort_insert (x : A) (l : list A) : list A :=
  match l with
  | [] => [x]
  | y :: l' => if le x y then x :: y :: l' else y :: sort_insert x l'
  end.

(** [Array.prototype.sort] with a comparator: stable. *)
Fixpoint Array_sort (l : list A) : list A :=
  match l with
  | [] => []
  | x :: l' => sort_insert x (Array_sort l')
  end.
End js_sort.

(** ** The splicer, phase by phase *)

Definition BASE_PIN_SCORE : Z := 1000000.

(** [(a, b) => a.position - b.position] *)
Definition promotion_le (a b : Promotion) : bool :=
  (a.(position) <=? b.(position))%nat.

(** Lines 26-30: the promotions of the matching rules, flattened, then sorted
    by position. *)
Definition flatPromotions (matchingRules : list PinRule) : list Promotion :=
  flat_map (fun rule => rule.(consequence).(promote)) matchingRules.

Definition allPromotions (matchingRules : list PinRule) : list Promotion :=
  Array_sort promotion_le (flatPromotions matchingRules).

(** Lines 32-35: the three collections of the conflict-resolution loop. *)
Record PinState := mkPinState {
  pinnedInternalIds : gset InternalDocumentID;
  promotionsMap : list (InternalDocumentID * nat);
  positionsTaken : gset nat
}.

Definition initialPinState : PinState := mkPinState ∅ [] ∅.

(** Lines 37-62: the body of the loop over [allPromotions]. *)
Definition resolve_step (orama : Orama) (st : PinState) (promotion : Promotion)
    : PinState :=
  match getInternalDocumentId orama.(internalDocumentIDStore) promotion.(doc_id) with
  | None => st
  | Some internalId =>
      match Map_get internalId st.(promotionsMap) with
      | Some existingPosition =>
          if (promotion.(position) <? existingPosition)%nat
          then mkPinState st.(pinnedInternalIds)
                 (Map_set internalId promotion.(position) st.(promotionsMap))
                 st.(positionsTaken)
          else st
      | None =>
          if bool_decide (promotion.(position) ∈ st.(positionsTaken)) then st
          else mkPinState ({[internalId]} ∪ st.(pinnedInternalIds))
                 (Map_set internalId promotion.(position) st.(promotionsMap))
                 ({[promotion.(position)]} ∪ st.(positionsTaken))
      end
  end.

Definition resolve_promotions (orama : Orama) (promotions : list Promotion)
    (st : PinState) : PinState :=
  fold_left (resolve_step orama) promotions st.

Definition resolved (orama : Orama) (matchingRules : list PinRule) : PinState :=
  resolve_promotions orama (allPromotions matchingRules) initialPinState.

(** Line 70. *)
Definition unpinnedResults (st : PinState) (uniqueDocsArray : list TokenScore)
    : list TokenScore :=
  filter (λ ts, ts.1 ∉ st.(pinnedInternalIds)) uniqueDocsArray.

(** Lines 77-93: the body of the loop over [promotionsMap.entries()];
    [None] when nothing is pushed. *)
Definition pin_entry (orama : Orama) (uniqueDocsArray : list TokenScore)
    (entry : InternalDocumentID * nat) : option TokenScore :=
  let '(internalId, position) := entry in
  match List.find (fun ts => bool_decide (ts.1 = internalId)) uniqueDocsArray with
  | Some existingResult => Some (internalId, (BASE_PIN_SCORE - Z.of_nat position)%Z)
  | None =>
      match documentsStore_get orama.(docs) internalId with
      | Some doc => Some (internalId, 0%Z)
      | None => None
      end
  end.

Definition pinnedResults (orama : Orama) (st : PinState)
    (uniqueDocsArray : list TokenScore) : list TokenScore :=
  omap (pin_entry orama uniqueDocsArray) st.(promotionsMap).

(** Lines 96-100: [posA - posB] with [?? Infinity]; [None] is [Infinity]. *)
Definition position_le (posA posB : option nat) : bool :=
  match posA, posB with
  | Some a, Some b => (a <=? b)%nat
  | _, None => true
  | None, Some _ => false
  end.

Definition pinned_le (st : PinState) (a b : TokenScore) : bool :=
  position_le (Map_get a.1 st.(promotionsMap)) (Map_get b.1 st.(promotionsMap)).

Definition sortedPinnedResults (orama : Orama) (st : PinState)
    (uniqueDocsArray : list TokenScore) : list TokenScore :=
  Array_sort (pinned_le st) (pinnedResults orama st uniqueDocsArray).

(** Lines 104-109: the key is [promotionsMap.get(pinnedResult[0])]. *)
Definition pinnedByPosition (st : PinState) (pinned : list TokenScore)
    : list (option nat * TokenScore) :=
  fold_left
    (fun m pinnedResult => Map_set (Map_get pinnedResult.1 st.(promotionsMap)) pinnedResult m)
    pinned [].

(** Lines 111-129: the interleaving loop, on its three variables. The guard
    bounds the number of iterations by [unpinned.length + pinned.length],
    which is the fuel [applyPinningRules] gives it ([interleave_fuel]: more
    fuel changes nothing). The lookup [unpinned !! unpinnedIndex] is the test
    [unpinnedIndex < unpinnedResults.length] together with the read
    [unpinnedResults[unpinnedIndex]]. *)
Fixpoint interleave (fuel : nat) (unpinned : list TokenScore) (pinnedLength : nat)
    (byPosition : list (option nat * TokenScore))
    (finalResults : list TokenScore) (unpinnedIndex currentPosition : nat)
    : list TokenScore :=
  match fuel with
  | 0 => finalResults
  | S fuel' =>
      if (currentPosition <? length unpinned + pinnedLength)%nat then
        match Map_get (Some currentPosition) byPosition with
        | Some pinnedResult =>
            interleave fuel' unpinned pinnedLength byPosition
              (finalResults ++ [pinnedResult]) unpinnedIndex (S currentPosition)
        | None =>
            match unpinned !! unpinnedIndex with
            | Some unpinnedResult =>
                interleave fuel' unpinned pinnedLength byPosition
                  (finalResults ++ [unpinnedResult]) (S unpinnedIndex) (S currentPosition)
            | None => finalResults
            end
        end
      else finalResults
  end.

(** Lines 131-136: the loop over [pinnedByPosition.entries()]; the test reads
    the length of the list as it grows. *)
Definition append_step (finalResults : list TokenScore)
    (entry : option nat * TokenScore) : list TokenScore :=
  match entry.1 with
  | Some position =>
      if (length finalResults <=? position)%nat
      then finalResults ++ [entry.2] else finalResults
  | None => finalResults
  end.

Definition append_remaining (byPosition : list (option nat * TokenScore))
    (finalResults : list TokenScore) : list TokenScore :=
  fold_left append_step byPosition finalResults.

(** The list the interleaving loop leaves in [finalResults]. *)
Definition walked (orama : Orama) (st : PinState) (uniqueDocsArray : list TokenScore)
    : list TokenScore :=
  let unpinned := unpinnedResults st uniqueDocsArray in
  let pinned := sortedPinnedResults orama st uniqueDocsArray in
  interleave (length unpinned + length pinned) unpinned (length pinned)
    (pinnedByPosition st pinned) [] 0 0.

(** Lines 69-138: what happens once some promotion has been placed. *)
Definition splice (orama : Orama) (st : PinState) (uniqueDocsArray : list TokenScore)
    : list TokenScore :=
  append_remaining
    (pinnedByPosition st (sortedPinnedResults orama st uniqueDocsArray))
    (walked orama st uniqueDocsArray).

Definition applyPinningRules (orama : Orama) (pinningStore : PinningStore)
    (uniqueDocsArray : list TokenScore) (searchTerm : option string)
    : list TokenScore :=
  let matchingRules := getMatchingRules pinningStore searchTerm in
  if (length matchingRules =? 0)%nat then uniqueDocsArray
  else
    let st := resolved orama matchingRules in
    if (length st.(promotionsMap) =? 0)%nat then uniqueDocsArray
    else splice orama st uniqueDocsArray.

(** ** Invariants of the conflict-resolution loop *)

(** The three collections agree: the keys of [promotionsMap] are the pinned
    ids, its values are the taken positions, and no two documents hold the
    same position. *)
Record consistent (st : PinState) : Prop := mkConsistent {
  consistent_keys : NoDup st.(promotionsMap).*1;
  consistent_values : NoDup st.(promotionsMap).*2;
  consistent_taken : ∀ p, p ∈ st.(positionsTaken) ↔ p ∈ st.(promotionsMap).*2;
  consistent_pinned : ∀ i, i ∈ st.(pinnedInternalIds) ↔ i ∈ st.(promotionsMap).*1
}.

(** Every position placed so far is at most [q]. *)
Definition placed_below (st : PinState) (q : nat) : Prop :=
  ∀ p, p ∈ st.(promotionsMap).*2 → p ≤ q.

Definition promotion_sorted : list Promotion → Prop :=
  StronglySorted (λ a b, promotion_le a b = true).

(** ** The interleaving loop, seen from the pins *)

(** Pins with their positions, as [pinnedByPosition] holds them when every
    pinned result has a position. *)
Definition keyed (pins : list (nat * TokenScore)) : list (option nat * TokenScore) :=
  (λ e, (Some e.1, e.2)) <$> pins.

Definition ascending (pins : list (nat * TokenScore)) : Prop :=
  StronglySorted (λ a b, a.1 < b.1) pins.

(** The pins at position [cur] or later. *)
Definition pins_from (pins : list (nat * TokenScore)) (cur : nat)
    : list (nat * TokenScore) :=
  filter (λ e, cur ≤ e.1) pins.

(** What the loop pushes from position [cur] on, given the unpinned results
    it has not pushed yet. *)
Fixpoint merge_from (pins : list (nat * TokenScore)) (fuel cur : nat)
    (unpinned : list TokenScore) : list TokenScore :=
  match fuel with
  | 0 => []
  | S fuel' =>
      match Map_get cur pins with
      | Some pinnedResult => pinnedResult :: merge_from pins fuel' (S cur) unpinned
      | None =>
          match unpinned with
          | unpinnedResult :: rest => unpinnedResult :: merge_from pins fuel' (S cur) rest
          | [] => []
          end
      end
  end.

(** The pinned results with the positions [promotionsMap] gives them. *)
Definition pinsOf (st : PinState) (pinned : list TokenScore) : list (nat * TokenScore) :=
  (λ ts, (default 0 (Map_get ts.1 st.(promotionsMap)), ts)) <$> pinned.

Definition placedPins (orama : Orama) (st : PinState) (uniqueDocsArray : list TokenScore)
    : list (nat * TokenScore) :=
  pinsOf st (sortedPinnedResults orama st uniqueDocsArray).

(** A promotion is stale when its document id does not resolve, or resolves
    to a document that is neither among the organic results nor in the
    document store. *)
Definition stale (orama : Orama) (uniqueDocsArray : list TokenScore)
    (promotion : Promotion) : Prop :=
  match getInternalDocumentId orama.(internalDocumentIDStore) promotion.(doc_id) with
  | None => True
  | Some internalId =>
      (internalId ∉ uniqueDocsArray.*1)
      ∧ documentsStore_get orama.(docs) internalId = None
  end.

(** ** The scenarios of the specification *)

Module Scenario.
Definition A : TokenScore := (1, 9%Z).
Definition B : TokenScore := (2, 8%Z).
Definition C : TokenScore := (3, 7%Z).
Definition organic : list TokenScore := [A; B; C].

(** Documents A, B, C, D and X are stored under the internal ids 1 to 5;
    the external id "gone" still resolves (to 6) but its document has been
    deleted; any other external id does not resolve. *)
Definition engine : Orama :=
  mkOrama
    (<["A" := 1]> (<["B" := 2]> (<["C" := 3]> (<["D" := 4]> (<["X" := 5]> (<["gone" := 6]> ∅))))))
    (<[1 := "a"]> (<[2 := "b"]> (<[3 := "c"]> (<[4 := "d"]> (<[5 := "x"]> ∅))))).

Definition rule (name pat : string) (ps : list Promotion) : PinRule :=
  mkPinRule name [mkCondition anchor_contains pat] (mkConsequence ps).

Definition storeE2 : PinningStore :=
  mkPinningStore [rule "R1" "feat" [mkPromotion "B" 0]].
Definition storeE3 : PinningStore :=
  mkPinningStore [rule "R1" "feat" [mkPromotion "B" 0];
                  rule "R2" "feat" [mkPromotion "C" 0]].
Definition storeE4 : PinningStore :=
  mkPinningStore [rule "R1" "boost" [mkPromotion "D" 2]].
Definition storeE5 : PinningStore :=
  mkPinningStore [rule "R1" "feat" [mkPromotion "gone" 0; mkPromotion "nope" 1]].
Definition storeE6 : PinningStore :=
  mkPinningStore [rule "R1" "feat" [mkPromotion "X" 10]].

(** Two pins past the end of an empty organic list. *)
Definition storeSparse : PinningStore :=
  mkPinningStore [rule "R1" "feat" [mkPromotion "D" 1; mkPromotion "X" 2]].

(** A and B both ask for position 1, A first; a later rule asks for
    position 0 for A. *)
Definition storeRescue : PinningStore :=
  mkPinningStore [rule "R1" "feat" [mkPromotion "A" 1; mkPromotion "B" 1];
                  rule "R2" "feat" [mkPromotion "A" 0]].

(** A is promoted to 5, then again to 2. *)
Definition storeTwice : PinningStore :=
  mkPinningStore [rule "R1" "feat" [mkPromotion "A" 5];
                  rule "R2" "feat" [mkPromotion "A" 2]].
End Scenario.
(** A stale promotion ahead of a valid one for the same position. *)
Definition storeBlocked : PinningStore :=
  mkPinningStore
    [Scenario.rule "R1" "feat"
       [mkPromotion "gone" 0; mkPromotion "B" 0; mkPromotion "C" 1]].

(** ** The search box wrapper of the Docusaurus theme *)

(** JavaScript truthiness of a value that is a string or [undefined]:
    [undefined] and the empty string are falsy. *)
Definition truthy (v : option string) : bool :=
  match v with
  | Some s => negb (String.eqb s "")
  | None => false
  end.

(** [a || b] *)
Definition js_or (a b : option string) : option string :=
  if truthy a then a else b.

(** What [OramaSearchWrapper] returns: one of the two components, the second
    with its [pluginId] prop. *)
Inductive SearchElement :=
  | OramaSearchNoDocs
  | OramaSearchWithDocs (pluginId : string).

(** [OramaSearchWrapper], on the values its two hooks give it: the pathname
    of the location and the [docsInstances] of the plugin data.
    [pathname.includes(id)] is [str_contains id pathname]; [xs[0]] is
    [head xs]. *)
Definition OramaSearchWrapper (pathname : string) (docsInstances : list string)
    : SearchElement :=
  let pluginId :=
    js_or (head (List.filter (fun id => str_contains id pathname) docsInstances))
          (head docsInstances) in
  if truthy pluginId then
    match pluginId with
    | Some id => OramaSearchWithDocs id
    | None => OramaSearchNoDocs
    end
  else OramaSearchNoDocs.

(** [occurs s t]: [s] is a substring of [t]. *)
Definition occurs (s t : string) : Prop :=
  ∃ a b, t = (a +:+ s +:+ b)%string.

(** ** The exports table of the stemmers build script *)

(** [Object.entries(stemmers)], lines 9-44. *)
Definition stemmers : list (string * string) :=
  [("arabic", "ar"); ("armenian", "am"); ("bulgarian", "bg"); ("danish", "dk");
   ("dutch", "nl"); ("english", "en"); ("finnish", "fi"); ("french", "fr");
   ("german", "de"); ("greek", "gr"); ("hungarian", "hu"); ("indian", "in");
   ("indonesian", "id"); ("irish", "ie"); ("italian", "it"); ("lithuanian", "lt");
   ("nepali", "np"); ("norwegian", "no"); ("portuguese", "pt"); ("romanian", "ro");
   ("russian", "ru"); ("serbian", "rs"); ("spanish", "es"); ("swedish", "se");
   ("tamil", "ta"); ("turkish", "tr"); ("ukrainian", "uk"); ("sanskrit", "sk")].

Record ExportEntry := mkExportEntry {
  export_types : string;
  export_import : string;
  export_require : string
}.

(** Lines 79-83: the entry of one language, from its short code. *)
Definition exportEntry (short : string) : ExportEntry :=
  mkExportEntry ("./dist/" +:+ short +:+ ".d.ts")
                ("./dist/" +:+ short +:+ ".js")
                ("./dist/" +:+ short +:+ ".cjs").

(** Lines 72-84: the [exports] object the loop of [main] builds, as far as
    its keys and values go. *)
Definition buildExports (table : list (string * string)) : gmap string ExportEntry :=
  fold_left (fun exports entry => <[("./" +:+ entry.1)%string := exportEntry entry.2]> exports)
    table ∅.


(** ** Facts about the containers *)

Section js_map_facts.
Context {K V : Type} `{EqDecision K}.
Implicit Types (k : K) (v : V) (m : list (K * V)).

Lemma Map_get_None k m : Map_get k m = None ↔ k ∉ m.*1.
Proof.
  induction m as [|[k' v'] m IH]; simpl.
  - split; [intros _; apply not_elem_of_nil | done].
  - rewrite not_elem_of_cons. destruct (decide (k = k')) as [->|Hne].
    + split; [done|]. by intros [? _].
    + rewrite IH. split; [by intros; split|by intros [_ ?]].
Qed.

Lemma Map_get_elem_of k v m : Map_get k m = Some v → (k, v) ∈ m.
Proof.
  induction m as [|[k' v'] m IH]; simpl; [done|].
  destruct (decide (k = k')) as [->|].
  - intros [= ->]. apply list_elem_of_here.
  - intros. apply list_elem_of_further; auto.
Qed.

Lemma Map_get_Some k v m : NoDup m.*1 → (k, v) ∈ m → Map_get k m = Some v.
Proof.
  induction m as [|[k' v'] m IH]; simpl.
  - intros _ Hin. by apply elem_of_nil in Hin.
  - rewrite NoDup_cons. intros [Hk Hm] Hin.
    apply elem_of_cons in Hin as [[= -> ->]|Hin].
    + by rewrite decide_True.
    + destruct (decide (k = k')) as [->|]; [|auto].
      exfalso. apply Hk. by apply (list_elem_of_fmap_2 fst _ (k', v)).
Qed.

Lemma Map_set_fresh k v m : Map_get k m = None → Map_set k v m = m ++ [(k, v)].
Proof.
  induction m as [|[k' v'] m IH]; simpl; [done|].
  destruct (decide (k = k')); [done|]. intros. by rewrite IH.
Qed.

Lemma Map_get_set_eq k v m : Map_get k (Map_set k v m) = Some v.
Proof.
  induction m as [|[k' v'] m IH]; simpl.
  - by rewrite decide_True.
  - destruct (decide (k = k')) as [->|Hne]; simpl.
    + by rewrite decide_True.
    + by rewrite decide_False.
Qed.

Lemma Map_get_set_ne k k' v m : k ≠ k' → Map_get k' (Map_set k v m) = Map_get k' m.
Proof.
  intros Hne. induction m as [|[k0 v0] m IH]; simpl.
  - by rewrite decide_False by congruence.
  - destruct (decide (k = k0)) as [->|Hne0]; simpl.
    + by rewrite !decide_False by congruence.
    + destruct (decide (k' = k0)); [done|apply IH].
Qed.

Lemma Map_set_values k v m x : x ∈ (Map_set k v m).*2 → x = v ∨ x ∈ m.*2.
Proof.
  induction m as [|[k' v'] m IH]; simpl.
  - rewrite list_elem_of_singleton. auto.
  - destruct (decide (k = k')); simpl; rewrite !elem_of_cons;
      [tauto|intros [?|?%IH]; tauto].
Qed.

Lemma Map_set_elem_of k v m e : e ∈ Map_set k v m → e = (k, v) ∨ e ∈ m.
Proof.
  induction m as [|[k' v'] m IH]; simpl.
  - rewrite list_elem_of_singleton. auto.
  - destruct (decide (k = k')); rewrite !elem_of_cons;
      [tauto|intros [?|?%IH]; tauto].
Qed.

(** Distinct keys holding the same value: excluded when the values are
    pairwise distinct. *)
Lemma Map_get_inj k1 k2 v m :
  NoDup m.*2 → Map_get k1 m = Some v → Map_get k2 m = Some v → k1 = k2.
Proof.
  induction m as [|[k' v'] m IH]; simpl; [done|].
  rewrite NoDup_cons. intros [Hv Hm].
  destruct (decide (k1 = k')) as [->|], (decide (k2 = k')) as [->|]; try done.
  - intros [= ->] H2. exfalso. apply Hv.
    by apply (list_elem_of_fmap_2 snd _ (k2, v)), Map_get_elem_of.
  - intros H1 [= ->]. exfalso. apply Hv.
    by apply (list_elem_of_fmap_2 snd _ (k1, v)), Map_get_elem_of.
  - auto.
Qed.
End js_map_facts.

Section js_sort_facts.
Context {A : Type} (le : A → A → bool).
Hypothesis le_total : ∀ x y, le x y = false → le y x = true.
Hypothesis le_trans : ∀ x y z, le x y = true → le y z = true → le x z = true.

Lemma sort_insert_Permutation x l : sort_insert le x l ≡ₚ x :: l.
Proof.
  induction l as [|y l IH]; simpl; [done|].
  destruct (le x y); [done|]. rewrite IH. apply Permutation_swap.
Qed.

Lemma Array_sort_Permutation l : Array_sort le l ≡ₚ l.
Proof.
  induction l as [|x l IH]; simpl; [done|].
  by rewrite sort_insert_Permutation, IH.
Qed.

Lemma Array_sort_length l : length (Array_sort le l) = length l.
Proof. by rewrite Array_sort_Permutation. Qed.

Lemma sort_insert_sorted x l :
  StronglySorted (λ a b, le a b = true) l →
  StronglySorted (λ a b, le a b = true) (sort_insert le x l).
Proof.
  induction 1 as [|y l Hl IH Hy]; simpl.
  - repeat constructor.
  - destruct (le x y) eqn:Hxy.
    + constructor; [by constructor|]. constructor; [done|].
      eapply Forall_impl; [exact Hy|]. intros z Hz. by eapply le_trans.
    + constructor; [done|]. rewrite sort_insert_Permutation.
      constructor; [by apply le_total | done].
Qed.

Lemma Array_sort_sorted l : StronglySorted (λ a b, le a b = true) (Array_sort le l).
Proof.
  induction l as [|x l IH]; simpl; [constructor|]. by apply sort_insert_sorted.
Qed.

(** Where the insertion stops. *)
Lemma sort_insert_app_l x l1 y l2 :
  le x y = true → sort_insert le x (l1 ++ y :: l2) = sort_insert le x l1 ++ y :: l2.
Proof.
  intros Hxy. induction l1 as [|z l1 IH]; simpl.
  - by rewrite Hxy.
  - destruct (le x z); [done|]. by rewrite IH.
Qed.

Lemma sort_insert_app_r x l1 l2 :
  Forall (λ z, le x z = false) l1 →
  sort_insert le x (l1 ++ l2) = l1 ++ sort_insert le x l2.
Proof.
  induction 1 as [|z l1 Hz _ IH]; simpl; [done|]. by rewrite Hz, IH.
Qed.
End js_sort_facts.

(** ** The conflict-resolution loop *)

Lemma promotion_le_total x y : promotion_le x y = false → promotion_le y x = true.
Proof. unfold promotion_le. rewrite Nat.leb_gt, Nat.leb_le. lia. Qed.

Lemma promotion_le_trans x y z :
  promotion_le x y = true → promotion_le y z = true → promotion_le x z = true.
Proof. unfold promotion_le. rewrite !Nat.leb_le. lia. Qed.

Lemma allPromotions_sorted matchingRules : promotion_sorted (allPromotions matchingRules).
Proof.
  apply Array_sort_sorted; [apply promotion_le_total | apply promotion_le_trans].
Qed.

Lemma allPromotions_Permutation matchingRules :
  allPromotions matchingRules ≡ₚ flatPromotions matchingRules.
Proof. apply Array_sort_Permutation. Qed.

Lemma initial_consistent : consistent initialPinState.
Proof. split; simpl; try apply NoDup_nil_2; intros; set_solver. Qed.

Lemma resolve_step_placed_below orama st pr q :
  placed_below st q → position pr ≤ q → placed_below (resolve_step orama st pr) q.
Proof.
  intros Hst Hq p. unfold resolve_step.
  destruct (getInternalDocumentId _ _) as [internalId|]; [|by auto].
  destruct (Map_get internalId _) as [existingPosition|].
  - case_match; [|by auto]. simpl. intros [->|?]%Map_set_values; auto.
  - case_bool_decide; [by auto|]. simpl. intros [->|?]%Map_set_values; auto.
Qed.

Lemma resolve_promotions_placed_below orama l st q :
  placed_below st q → Forall (λ pr, position pr ≤ q) l →
  placed_below (resolve_promotions orama l st) q.
Proof.
  intros Hst Hl. revert st Hst.
  induction Hl as [|pr l Hpr _ IH]; intros st Hst; simpl; [done|].
  apply IH. by apply resolve_step_placed_below.
Qed.

(** A document that already has a position keeps it when the promotion at
    hand does not ask for a smaller one. *)
Lemma resolve_step_placed orama st pr internalId existingPosition :
  getInternalDocumentId orama.(internalDocumentIDStore) pr.(doc_id) = Some internalId →
  Map_get internalId st.(promotionsMap) = Some existingPosition →
  existingPosition ≤ position pr →
  resolve_step orama st pr = st.
Proof.
  intros Hid Hget Hle. unfold resolve_step. rewrite Hid, Hget.
  by rewrite (proj2 (Nat.ltb_ge _ _) Hle).
Qed.

Lemma placed_below_get st q k p :
  placed_below st q → Map_get k st.(promotionsMap) = Some p → p ≤ q.
Proof.
  intros Hst Hget. apply Hst.
  by apply (list_elem_of_fmap_2 snd _ (k, p)), Map_get_elem_of.
Qed.

Lemma resolve_step_consistent orama st pr :
  consistent st → placed_below st (position pr) →
  consistent (resolve_step orama st pr).
Proof.
  intros Hst Hq. unfold resolve_step.
  destruct (getInternalDocumentId _ _) as [internalId|] eqn:Hid; [|done].
  destruct (Map_get internalId _) as [existingPosition|] eqn:Hget.
  - rewrite (proj2 (Nat.ltb_ge _ _) (placed_below_get _ _ _ _ Hq Hget)). done.
  - case_bool_decide as Htaken; [done|].
    destruct Hst as [Hk Hv Ht Hp].
    rewrite Ht in Htaken. apply Map_get_None in Hget.
    split; simpl; rewrite Map_set_fresh by (by apply Map_get_None).
    + rewrite fmap_app. apply NoDup_app. split_and!; [done| |apply NoDup_singleton].
      intros i Hi [= ->]%list_elem_of_singleton. done.
    + rewrite fmap_app. apply NoDup_app. split_and!; [done| |apply NoDup_singleton].
      intros i Hi [= ->]%list_elem_of_singleton. done.
    + intros p. rewrite fmap_app, elem_of_app, elem_of_union, Ht. simpl.
      rewrite list_elem_of_singleton, elem_of_singleton. tauto.
    + intros i. rewrite fmap_app, elem_of_app, elem_of_union, Hp. simpl.
      rewrite list_elem_of_singleton, elem_of_singleton. tauto.
Qed.

(** Over promotions sorted by position, a property of the state that every
    step taken from a consistent state preserves holds at the end. *)
Lemma resolve_promotions_sorted_ind orama (Q : PinState → Prop) l :
  promotion_sorted l →
  (∀ st pr, pr ∈ l → consistent st → placed_below st (position pr) → Q st →
            Q (resolve_step orama st pr)) →
  ∀ st, consistent st → Forall (λ pr, placed_below st (position pr)) l → Q st →
        consistent (resolve_promotions orama l st) ∧ Q (resolve_promotions orama l st).
Proof.
  induction 1 as [|pr l Hl IH Hpr]; intros Hstep st Hst Hb HQ; simpl; [done|].
  apply Forall_cons in Hb as [Hb1 Hb2].
  apply IH.
  - intros st' pr' Hin. apply Hstep. by apply list_elem_of_further.
  - by apply resolve_step_consistent.
  - rewrite Forall_forall in Hpr, Hb2 |- *. intros pr' Hin.
    apply resolve_step_placed_below; [by apply Hb2|].
    specialize (Hpr _ Hin). unfold promotion_le in Hpr. by apply Nat.leb_le.
  - apply Hstep; [apply list_elem_of_here|done..].
Qed.

Lemma initial_placed_below q : placed_below initialPinState q.
Proof. intros p Hp. by apply elem_of_nil in Hp. Qed.

Lemma resolved_consistent orama matchingRules : consistent (resolved orama matchingRules).
Proof.
  unfold resolved.
  apply (resolve_promotions_sorted_ind orama (λ _, True)); try done.
  - apply allPromotions_sorted.
  - apply initial_consistent.
  - apply Forall_forall. intros. apply initial_placed_below.
Qed.

(** Every entry of [promotionsMap] comes from a promotion that resolved to
    its key and asked for its value. *)
Lemma resolve_step_provenance orama st pr e :
  e ∈ (resolve_step orama st pr).(promotionsMap) →
  e ∈ st.(promotionsMap) ∨
  (getInternalDocumentId orama.(internalDocumentIDStore) pr.(doc_id) = Some e.1
   ∧ position pr = e.2).
Proof.
  unfold resolve_step.
  destruct (getInternalDocumentId _ _) as [internalId|]; [|by auto].
  destruct (Map_get internalId _) as [existingPosition|].
  - case_match; [|by auto]. simpl. intros [->|?]%Map_set_elem_of; auto.
  - case_bool_decide; [by auto|]. simpl. intros [->|?]%Map_set_elem_of; auto.
Qed.

Lemma resolve_promotions_provenance orama l st e :
  e ∈ (resolve_promotions orama l st).(promotionsMap) →
  e ∈ st.(promotionsMap) ∨
  ∃ pr, pr ∈ l
        ∧ getInternalDocumentId orama.(internalDocumentIDStore) pr.(doc_id) = Some e.1
        ∧ position pr = e.2.
Proof.
  revert st. induction l as [|pr l IH]; intros st; simpl; [by auto|].
  intros [Hin|(pr' & Hin & ?)]%IH.
  - apply resolve_step_provenance in Hin as [?|?]; [by auto|].
    right. exists pr. split; [apply list_elem_of_here|done].
  - right. exists pr'. split; [by apply list_elem_of_further|done].
Qed.

Lemma resolved_provenance orama matchingRules e :
  e ∈ (resolved orama matchingRules).(promotionsMap) →
  ∃ pr, pr ∈ flatPromotions matchingRules
        ∧ getInternalDocumentId orama.(internalDocumentIDStore) pr.(doc_id) = Some e.1
        ∧ position pr = e.2.
Proof.
  intros [Hin|(pr & Hin & ?)]%resolve_promotions_provenance.
  - by apply elem_of_nil in Hin.
  - exists pr. by rewrite <-allPromotions_Permutation.
Qed.

(** ** The interleaving loop and the trailing loop *)

Section interleaving.
Implicit Types (pins : list (nat * TokenScore)) (unpinned : list TokenScore).

Lemma keyed_get pins cur : Map_get (Some cur) (keyed pins) = Map_get cur pins.
Proof.
  unfold keyed.
  induction pins as [|[p t] l IH]; simpl; [done|].
  destruct (decide (cur = p)) as [->|Hne].
  - by rewrite decide_True.
  - rewrite decide_False by congruence. done.
Qed.

(** More fuel than the guard allows changes nothing. *)
Lemma interleave_fuel unpinned pinnedLength byPosition fuel finalResults unpinnedIndex currentPosition :
  length unpinned + pinnedLength - currentPosition ≤ fuel →
  interleave fuel unpinned pinnedLength byPosition finalResults unpinnedIndex currentPosition
  = interleave (length unpinned + pinnedLength - currentPosition) unpinned pinnedLength
      byPosition finalResults unpinnedIndex currentPosition.
Proof.
  revert finalResults unpinnedIndex currentPosition.
  induction fuel as [|fuel IH]; intros fin ui cur Hfuel.
  - by replace (length unpinned + pinnedLength - cur) with 0 by lia.
  - simpl. destruct (cur <? length unpinned + pinnedLength) eqn:Hguard.
    + apply Nat.ltb_lt in Hguard.
      replace (length unpinned + pinnedLength - cur)
        with (S (length unpinned + pinnedLength - S cur)) by lia.
      simpl. rewrite (proj2 (Nat.ltb_lt _ _) Hguard).
      destruct (Map_get (Some cur) byPosition); [apply IH; lia|].
      destruct (unpinned !! ui); [apply IH; lia|done].
    + apply Nat.ltb_ge in Hguard.
      by replace (length unpinned + pinnedLength - cur) with 0 by lia.
Qed.

Lemma interleave_merge_from pins unpinned pinnedLength fuel finalResults unpinnedIndex currentPosition :
  currentPosition + fuel ≤ length unpinned + pinnedLength →
  interleave fuel unpinned pinnedLength (keyed pins) finalResults unpinnedIndex currentPosition
  = finalResults ++ merge_from pins fuel currentPosition (drop unpinnedIndex unpinned).
Proof.
  revert finalResults unpinnedIndex currentPosition.
  induction fuel as [|fuel IH]; intros fin ui cur Hfuel; simpl.
  - by rewrite app_nil_r.
  - rewrite (proj2 (Nat.ltb_lt cur _)) by lia. rewrite keyed_get.
    destruct (Map_get cur pins) as [t|].
    + rewrite IH by lia. by rewrite <-app_assoc.
    + destruct (unpinned !! ui) as [u|] eqn:Hu.
      * rewrite (drop_S _ _ _ Hu), IH by lia. by rewrite <-app_assoc.
      * rewrite drop_ge by (by apply lookup_ge_None). by rewrite app_nil_r.
Qed.

Lemma ascending_get pins p t : ascending pins → (p, t) ∈ pins → Map_get p pins = Some t.
Proof.
  induction 1 as [|[q u] l _ IH Hhd]; simpl.
  - intros Hin. by apply elem_of_nil in Hin.
  - intros [[= -> ->]|Hin]%elem_of_cons; [by rewrite decide_True|].
    rewrite Forall_forall in Hhd. specialize (Hhd _ Hin). simpl in Hhd.
    rewrite decide_False by lia. auto.
Qed.

(** A pin at [cur] heads the pins from [cur] on. *)
Lemma pins_from_here pins cur t :
  ascending pins → Map_get cur pins = Some t → pins_from pins cur = (cur, t) :: pins_from pins (S cur).
Proof.
  unfold pins_from.
  induction 1 as [|[q u] l _ IH Hhd]; simpl; [done|].
  rewrite Forall_forall in Hhd.
  destruct (decide (cur = q)) as [->|Hne].
  - intros [= ->]. rewrite filter_cons_True by (simpl; lia).
    rewrite filter_cons_False by (simpl; lia). f_equal.
    clear IH. induction l as [|e l IHl]; [done|].
    assert (q < e.1) by (apply (Hhd e), list_elem_of_here).
    rewrite !filter_cons_True by lia. f_equal. apply IHl.
    intros e' He'. apply Hhd. by apply list_elem_of_further.
  - intros Hget. destruct (decide (cur ≤ q)) as [Hle|Hgt].
    + exfalso. apply Map_get_elem_of in Hget.
      specialize (Hhd _ Hget). simpl in Hhd. lia.
    + rewrite !filter_cons_False by (simpl; lia). auto.
Qed.

Lemma pins_from_skip pins cur :
  Map_get cur pins = None → pins_from pins cur = pins_from pins (S cur).
Proof.
  unfold pins_from.
  induction pins as [|[q u] l IH]; simpl; [done|].
  destruct (decide (cur = q)) as [->|Hne]; [done|]. intros Hget.
  rewrite !filter_cons. simpl.
  destruct (decide (cur ≤ q)), (decide (S cur ≤ q)); try lia; by rewrite IH.
Qed.

Lemma pins_from_0 pins : pins_from pins 0 = pins.
Proof.
  unfold pins_from.
  induction pins as [|e l IH]; [done|].
  rewrite filter_cons_True by lia. by rewrite IH.
Qed.

(** Position honoring inside the walked list. *)
Lemma merge_from_lookup pins fuel cur unpinned p t :
  ascending pins → (p, t) ∈ pins → cur ≤ p < cur + length (merge_from pins fuel cur unpinned) →
  merge_from pins fuel cur unpinned !! (p - cur) = Some t.
Proof.
  intros Hasc Hin. apply ascending_get in Hin; [|done]. revert cur unpinned.
  induction fuel as [|fuel IH]; intros cur unpinned; simpl; [lia|].
  destruct (Map_get cur pins) as [t0|] eqn:Hcur; simpl.
  - intros Hp. destruct (decide (p = cur)) as [->|Hne].
    + rewrite Nat.sub_diag. simpl. congruence.
    + replace (p - cur) with (S (p - S cur)) by lia. simpl. apply IH. lia.
  - destruct unpinned as [|u rest]; simpl; [lia|].
    intros Hp. assert (p ≠ cur) by congruence.
    replace (p - cur) with (S (p - S cur)) by lia. simpl. apply IH. lia.
Qed.

(** With as much fuel as there are results left to push, the walked list
    followed by the pins it has not reached holds the unpinned results and
    the pins, each once. *)
Lemma merge_from_Permutation pins fuel cur unpinned :
  ascending pins → fuel = length unpinned + length (pins_from pins cur) →
  merge_from pins fuel cur unpinned
    ++ (pins_from pins (cur + length (merge_from pins fuel cur unpinned))).*2
  ≡ₚ unpinned ++ (pins_from pins cur).*2.
Proof.
  intros Hasc. revert cur unpinned.
  induction fuel as [|fuel IH]; intros cur unpinned Hfuel; simpl.
  - destruct unpinned; [|done]. by rewrite Nat.add_0_r.
  - destruct (Map_get cur pins) as [t|] eqn:Hcur; simpl.
    + rewrite (pins_from_here _ _ _ Hasc Hcur) in Hfuel |- *. simpl in *.
      rewrite Nat.add_succ_r, IH by lia.
      by rewrite <-Permutation_middle.
    + rewrite (pins_from_skip _ _ Hcur) in Hfuel |- *.
      destruct unpinned as [|u rest]; simpl.
      * by rewrite Nat.add_0_r, <-(pins_from_skip _ _ Hcur).
      * rewrite Nat.add_succ_r. simpl in Hfuel. by rewrite IH by lia.
Qed.

(** The walk stops short of any pin: no pin sits at the position where it
    stopped. *)
Lemma merge_from_stop pins fuel cur unpinned e :
  ascending pins → fuel = length unpinned + length (pins_from pins cur) →
  e ∈ pins → e.1 ≠ cur + length (merge_from pins fuel cur unpinned).
Proof.
  intros Hasc. revert cur unpinned.
  induction fuel as [|fuel IH]; intros cur unpinned Hfuel Hin; simpl.
  - rewrite Nat.add_0_r. intros Heq.
    assert (e ∈ pins_from pins cur) as He
      by (apply list_elem_of_filter; split; [lia|done]).
    destruct (pins_from pins cur); [by apply elem_of_nil in He|simpl in *; lia].
  - destruct (Map_get cur pins) as [t|] eqn:Hcur; simpl.
    + rewrite (pins_from_here _ _ _ Hasc Hcur) in Hfuel. simpl in Hfuel.
      rewrite Nat.add_succ_r. apply (IH (S cur)); [lia|done].
    + destruct unpinned as [|u rest]; simpl.
      * rewrite Nat.add_0_r. intros Heq. apply Map_get_None in Hcur.
        apply Hcur. rewrite <-Heq. by apply (list_elem_of_fmap_2 fst).
      * rewrite (pins_from_skip _ _ Hcur) in Hfuel. simpl in Hfuel.
        rewrite Nat.add_succ_r. apply (IH (S cur)); [lia|done].
Qed.

(** The walked list keeps the unpinned results in their order. *)
Lemma merge_from_filter (P : TokenScore → Prop) `{!∀ x, Decision (P x)}
    pins fuel cur unpinned :
  ascending pins → Forall P unpinned → Forall (λ e, ¬ P e.2) pins →
  fuel = length unpinned + length (pins_from pins cur) →
  filter P (merge_from pins fuel cur unpinned) = unpinned.
Proof.
  intros Hasc Hunp Hpins. revert cur unpinned Hunp.
  induction fuel as [|fuel IH]; intros cur unpinned Hunp Hfuel; simpl.
  - by destruct unpinned.
  - destruct (Map_get cur pins) as [t|] eqn:Hcur; simpl.
    + rewrite (pins_from_here _ _ _ Hasc Hcur) in Hfuel. simpl in Hfuel.
      rewrite filter_cons_False.
      * apply IH; [done|lia].
      * rewrite Forall_forall in Hpins.
        apply (Hpins (cur, t)). by apply Map_get_elem_of.
    + rewrite (pins_from_skip _ _ Hcur) in Hfuel.
      destruct unpinned as [|u rest]; simpl; [done|].
      apply Forall_cons in Hunp as [Hu Hrest].
      rewrite filter_cons_True by done. f_equal. simpl in Hfuel.
      apply IH; [done|lia].
Qed.

(** The trailing loop: when no pin sits between [cur] and the length of
    the list, the pins from [cur] on are appended in their order. *)
Lemma append_remaining_keyed pins cur finalResults :
  ascending pins → cur ≤ length finalResults →
  Forall (λ e, e.1 < cur ∨ length finalResults < e.1) pins →
  append_remaining (keyed pins) finalResults
  = finalResults ++ (pins_from pins cur).*2.
Proof.
  unfold append_remaining, pins_from. intros Hasc. revert finalResults.
  induction Hasc as [|[q u] l _ IH Hhd]; intros fin Hcur Hall; simpl.
  - by rewrite app_nil_r.
  - apply Forall_cons in Hall as [Hq Hall]. simpl in Hq.
    unfold append_step at 2. simpl.
    destruct (decide (cur ≤ q)) as [Hle|Hgt].
    + rewrite (proj2 (Nat.leb_le (length fin) q)) by lia.
      rewrite filter_cons_True by done. simpl.
      rewrite IH.
      * by rewrite <-app_assoc.
      * rewrite length_app. simpl. lia.
      * rewrite Forall_forall in Hhd |- *. intros e He.
        specialize (Hhd _ He). simpl in Hhd. rewrite length_app. simpl. lia.
    + rewrite (proj2 (Nat.leb_gt (length fin) q)) by lia.
      rewrite filter_cons_False by done. by apply IH.
Qed.

Lemma ascending_NoDup pins : ascending pins → NoDup pins.*1.
Proof.
  induction 1 as [|[q u] l _ IH Hhd]; simpl; [apply NoDup_nil_2|].
  apply NoDup_cons. split; [|done].
  intros (e & -> & He)%list_elem_of_fmap.
  rewrite Forall_forall in Hhd. specialize (Hhd _ He). simpl in Hhd. lia.
Qed.
End interleaving.

(** ** The pinned results *)

Lemma pin_entry_id orama uniqueDocsArray e ts :
  pin_entry orama uniqueDocsArray e = Some ts → ts.1 = e.1.
Proof.
  destruct e as [internalId p]. unfold pin_entry.
  destruct (List.find _ _); [by intros [= <-]|].
  destruct (documentsStore_get _ _); [by intros [= <-]|done].
Qed.

Lemma pinnedResults_elem_of orama st uniqueDocsArray ts :
  ts ∈ pinnedResults orama st uniqueDocsArray ↔
  ∃ p, (ts.1, p) ∈ st.(promotionsMap) ∧ pin_entry orama uniqueDocsArray (ts.1, p) = Some ts.
Proof.
  unfold pinnedResults. rewrite list_elem_of_omap. split.
  - intros ([i p] & Hin & Hpin). exists p.
    apply pin_entry_id in Hpin as Hid. simpl in Hid. by subst i.
  - intros (p & Hin & Hpin). by exists (ts.1, p).
Qed.

Lemma pinnedResults_ids_sublist orama st uniqueDocsArray :
  (pinnedResults orama st uniqueDocsArray).*1 `sublist_of` st.(promotionsMap).*1.
Proof.
  unfold pinnedResults. induction (promotionsMap st) as [|e m IH]; simpl; [done|].
  destruct (pin_entry orama uniqueDocsArray e) as [ts|] eqn:Hpin; simpl.
  - rewrite (pin_entry_id _ _ _ _ Hpin). by apply sublist_skip.
  - by apply sublist_cons.
Qed.

Lemma position_le_total x y : position_le x y = false → position_le y x = true.
Proof.
  destruct x, y; simpl; try done. rewrite Nat.leb_gt, Nat.leb_le. lia.
Qed.

Lemma position_le_trans x y z :
  position_le x y = true → position_le y z = true → position_le x z = true.
Proof.
  destruct x, y, z; simpl; try done. rewrite !Nat.leb_le. lia.
Qed.

Lemma sortedPinnedResults_Permutation orama st uniqueDocsArray :
  sortedPinnedResults orama st uniqueDocsArray ≡ₚ pinnedResults orama st uniqueDocsArray.
Proof. apply Array_sort_Permutation. Qed.

Lemma sortedPinnedResults_sorted orama st uniqueDocsArray :
  StronglySorted (λ a b, pinned_le st a b = true)
    (sortedPinnedResults orama st uniqueDocsArray).
Proof.
  apply Array_sort_sorted; unfold pinned_le.
  - intros x y. apply position_le_total.
  - intros x y z. apply position_le_trans.
Qed.

Lemma pinsOf_values st pinned : (pinsOf st pinned).*2 = pinned.
Proof.
  unfold pinsOf. induction pinned as [|ts l IH]; simpl; [done|]. by f_equal.
Qed.

Lemma pinsOf_elem_of st pinned e :
  Forall (λ ts, is_Some (Map_get ts.1 st.(promotionsMap))) pinned →
  e ∈ pinsOf st pinned → e.2 ∈ pinned ∧ Map_get e.2.1 st.(promotionsMap) = Some e.1.
Proof.
  rewrite Forall_forall. intros Hall (ts & -> & Hin)%list_elem_of_fmap. simpl.
  split; [done|]. destruct (Hall _ Hin) as [p ->]. done.
Qed.

Lemma pinsOf_ascending st pinned :
  NoDup st.(promotionsMap).*2 → NoDup pinned.*1 →
  Forall (λ ts, is_Some (Map_get ts.1 st.(promotionsMap))) pinned →
  StronglySorted (λ a b, pinned_le st a b = true) pinned →
  ascending (pinsOf st pinned).
Proof.
  intros Hvalues Hids Hall Hsorted. unfold ascending, pinsOf.
  induction Hsorted as [|a l _ IH Hhd]; simpl; [constructor|].
  apply NoDup_cons in Hids as [Ha Hids]. apply Forall_cons in Hall as [[pa Hpa] Hall].
  constructor; [by apply IH|].
  rewrite Forall_fmap, Forall_forall. intros b Hb. simpl.
  rewrite Forall_forall in Hhd, Hall.
  specialize (Hhd _ Hb). destruct (Hall _ Hb) as [pb Hpb].
  unfold pinned_le in Hhd. rewrite Hpa, Hpb in Hhd |- *. simpl in *.
  apply Nat.leb_le in Hhd.
  assert (pa ≠ pb); [|lia]. intros ->.
  apply Ha. rewrite (Map_get_inj _ _ _ _ Hvalues Hpa Hpb).
  by apply list_elem_of_fmap_2.
Qed.

Lemma Map_set_fold {K V} `{EqDecision K} (key : V → K) (l : list V) (m : list (K * V)) :
  NoDup (m.*1 ++ (key <$> l)) →
  fold_left (λ m v, Map_set (key v) v m) l m = m ++ ((λ v, (key v, v)) <$> l).
Proof.
  revert m. induction l as [|v l IH]; intros m Hnd; simpl.
  - by rewrite app_nil_r.
  - assert (Map_get (key v) m = None) as Hfresh.
    { apply Map_get_None. apply NoDup_app in Hnd as (_ & Hdisj & _).
      intros Hin. apply (Hdisj _ Hin), list_elem_of_here. }
    rewrite Map_set_fresh by done. rewrite IH.
    + by rewrite <-app_assoc.
    + rewrite fmap_app. simpl. by rewrite <-app_assoc.
Qed.

Lemma pinnedByPosition_keyed st pinned :
  Forall (λ ts, is_Some (Map_get ts.1 st.(promotionsMap))) pinned →
  ascending (pinsOf st pinned) →
  pinnedByPosition st pinned = keyed (pinsOf st pinned).
Proof.
  intros Hall Hasc. unfold pinnedByPosition.
  rewrite (Map_set_fold (λ ts : TokenScore, Map_get ts.1 st.(promotionsMap))).
  - simpl. unfold keyed, pinsOf. rewrite <-list_fmap_compose.
    apply Forall_fmap_ext_1. eapply Forall_impl; [exact Hall|].
    intros ts [p Hp]. simpl. by rewrite Hp.
  - simpl. apply ascending_NoDup in Hasc. unfold pinsOf in Hasc.
    rewrite <-list_fmap_compose in Hasc.
    apply (NoDup_fmap_1 (default 0)). by rewrite <-list_fmap_compose.
Qed.

Lemma filter_none {A} (P : A → Prop) `{!∀ x, Decision (P x)} (l : list A) :
  Forall (λ x, ¬ P x) l → filter P l = [].
Proof.
  induction 1 as [|x l Hx _ IH]; [done|]. by rewrite filter_cons_False.
Qed.

(** ** The shape of the spliced list *)

Section splice_facts.
Context (orama : Orama) (st : PinState) (uniqueDocsArray : list TokenScore).
Hypothesis st_consistent : consistent st.

Local Abbreviation unpinned := (unpinnedResults st uniqueDocsArray).
Local Abbreviation pinned := (sortedPinnedResults orama st uniqueDocsArray).
Local Abbreviation pins := (placedPins orama st uniqueDocsArray).

Lemma sortedPinned_positions :
  Forall (λ ts, is_Some (Map_get ts.1 st.(promotionsMap))) pinned.
Proof using st_consistent.
  apply Forall_forall. intros ts Hin.     rewrite sortedPinnedResults_Permutation in Hin.
  apply pinnedResults_elem_of in Hin as (p & Hin & _).
  exists p. apply Map_get_Some; [apply st_consistent|done].
Qed.

Lemma pinnedResults_NoDup : NoDup (pinnedResults orama st uniqueDocsArray).*1.
Proof using st_consistent.
  eapply sublist_NoDup; [apply st_consistent|apply pinnedResults_ids_sublist].
Qed.

Lemma placedPins_ascending : ascending pins.
Proof using st_consistent.
  apply pinsOf_ascending.
  - apply st_consistent.
  - unfold sortedPinnedResults. rewrite Array_sort_Permutation.
    apply pinnedResults_NoDup.
  - apply sortedPinned_positions.
  - apply sortedPinnedResults_sorted.
Qed.

Lemma placedPins_values : pins.*2 = pinned.
Proof using Type. apply pinsOf_values. Qed.

Lemma placedPins_length : length pins = length pinned.
Proof using Type. unfold placedPins, pinsOf. by rewrite length_fmap. Qed.

Lemma walked_merge_from :
  walked orama st uniqueDocsArray
  = merge_from pins (length unpinned + length pinned) 0 unpinned.
Proof using st_consistent.
  unfold walked.
  rewrite pinnedByPosition_keyed
    by (apply sortedPinned_positions || apply placedPins_ascending).
  by rewrite interleave_merge_from.
Qed.

Lemma splice_walked :
  splice orama st uniqueDocsArray
  = walked orama st uniqueDocsArray
      ++ (pins_from pins (length (walked orama st uniqueDocsArray))).*2.
Proof using st_consistent.
  unfold splice.
  rewrite pinnedByPosition_keyed
    by (apply sortedPinned_positions || apply placedPins_ascending).
  apply append_remaining_keyed; [apply placedPins_ascending|done|].
  apply Forall_forall. intros e He.
  pose proof (merge_from_stop pins (length unpinned + length pinned) 0 unpinned e
                placedPins_ascending) as Hstop.
  rewrite <-walked_merge_from in Hstop. simpl in Hstop.
  rewrite pins_from_0, placedPins_length in Hstop.
  specialize (Hstop eq_refl He). lia.
Qed.

Lemma splice_Permutation :
  splice orama st uniqueDocsArray ≡ₚ unpinned ++ pinnedResults orama st uniqueDocsArray.
Proof using st_consistent.
  rewrite splice_walked, walked_merge_from.
  pose proof (merge_from_Permutation pins (length unpinned + length pinned) 0 unpinned
                placedPins_ascending) as Hperm.
  rewrite pins_from_0, placedPins_length in Hperm. simpl in Hperm.
  rewrite (Hperm eq_refl), placedPins_values.
  by rewrite sortedPinnedResults_Permutation.
Qed.

Lemma pinned_in_set ts :
  ts ∈ pinnedResults orama st uniqueDocsArray → ts.1 ∈ st.(pinnedInternalIds).
Proof using st_consistent.
  intros (p & Hin & _)%pinnedResults_elem_of.
  apply st_consistent. by apply (list_elem_of_fmap_2 fst _ (ts.1, p)).
Qed.

Lemma splice_unpinned :
  filter (λ ts, ts.1 ∉ st.(pinnedInternalIds)) (splice orama st uniqueDocsArray)
  = unpinned.
Proof using st_consistent.
  assert (Forall (λ e : nat * TokenScore, ¬ (e.2.1 ∉ st.(pinnedInternalIds))) pins) as Hpins.
  { apply Forall_forall. intros e He Hnot. apply Hnot.
    apply pinned_in_set. rewrite <-sortedPinnedResults_Permutation.
    rewrite <-placedPins_values. by apply list_elem_of_fmap_2. }
  rewrite splice_walked, filter_app, walked_merge_from.
  rewrite (merge_from_filter (λ ts, ts.1 ∉ st.(pinnedInternalIds))).
  - rewrite filter_none; [by rewrite app_nil_r|].
    apply Forall_fmap. apply Forall_forall. intros e [_ He]%list_elem_of_filter.
    rewrite Forall_forall in Hpins. by apply Hpins.
  - apply placedPins_ascending.
  - apply Forall_forall. by intros ts [? _]%list_elem_of_filter.
  - done.
  - by rewrite pins_from_0, placedPins_length.
Qed.

(** A pin whose position lies inside the walked list sits at that index. *)
Lemma splice_lookup e :
  e ∈ pins → e.1 < length (walked orama st uniqueDocsArray) →
  splice orama st uniqueDocsArray !! e.1 = Some e.2.
Proof using st_consistent.
  intros He Hlt. rewrite splice_walked, lookup_app_l by done.
  rewrite walked_merge_from in Hlt |- *.
  rewrite <-(Nat.sub_0_r e.1) at 1.
  apply merge_from_lookup; [apply placedPins_ascending|by destruct e|simpl; lia].
Qed.
End splice_facts.

Lemma filter_all {A} (P : A → Prop) `{!∀ x, Decision (P x)} (l : list A) :
  Forall P l → filter P l = l.
Proof.
  induction 1 as [|x l Hx _ IH]; [done|]. by rewrite filter_cons_True, IH.
Qed.

Lemma find_id_None (internalId : InternalDocumentID) (l : list TokenScore) :
  List.find (fun ts => bool_decide (ts.1 = internalId)) l = None ↔ internalId ∉ l.*1.
Proof.
  induction l as [|ts l IH]; simpl.
  - split; [intros _; apply not_elem_of_nil|done].
  - rewrite not_elem_of_cons. case_bool_decide as Hts.
    + split; [done|]. intros [Hne _]. by destruct Hne.
    + rewrite IH. split; [|by intros [_ ?]].
      intros. split; [congruence|done].
Qed.

Lemma pin_entry_organic orama uniqueDocsArray internalId p :
  internalId ∈ uniqueDocsArray.*1 →
  pin_entry orama uniqueDocsArray (internalId, p)
  = Some (internalId, (BASE_PIN_SCORE - Z.of_nat p)%Z).
Proof.
  intros Hin. unfold pin_entry.
  destruct (List.find _ _) eqn:Hfind; [done|].
  by apply find_id_None in Hfind.
Qed.

Lemma pin_entry_outside orama uniqueDocsArray internalId p :
  internalId ∉ uniqueDocsArray.*1 →
  pin_entry orama uniqueDocsArray (internalId, p)
  = match documentsStore_get orama.(docs) internalId with
    | Some _ => Some (internalId, 0%Z)
    | None => None
    end.
Proof. intros Hin%find_id_None. unfold pin_entry. by rewrite Hin. Qed.

(** Without a surviving pin the spliced list is the list of unpinned
    results. *)
Lemma splice_no_pins orama st uniqueDocsArray :
  consistent st → pinnedResults orama st uniqueDocsArray = [] →
  splice orama st uniqueDocsArray = unpinnedResults st uniqueDocsArray.
Proof.
  intros Hst Hnone.
  rewrite <-(splice_unpinned orama st uniqueDocsArray Hst).
  symmetry. apply filter_all, Forall_forall. intros ts Hin.
  rewrite (splice_Permutation orama st uniqueDocsArray Hst), Hnone, app_nil_r in Hin.
  by apply list_elem_of_filter in Hin as [? _].
Qed.

Lemma unpinnedResults_nothing_placed st uniqueDocsArray :
  consistent st → st.(promotionsMap) = [] →
  unpinnedResults st uniqueDocsArray = uniqueDocsArray.
Proof.
  intros Hst Hpm. apply filter_all, Forall_forall. intros ts _.
  rewrite (consistent_pinned _ Hst), Hpm. apply not_elem_of_nil.
Qed.

(** The two early returns are shortcuts: [applyPinningRules] always returns
    what the splice of the resolved promotions gives. *)
Lemma applyPinningRules_splice orama pinningStore uniqueDocsArray searchTerm :
  applyPinningRules orama pinningStore uniqueDocsArray searchTerm
  = splice orama (resolved orama (getMatchingRules pinningStore searchTerm)) uniqueDocsArray.
Proof.
  unfold applyPinningRules.
  assert (∀ st, consistent st → st.(promotionsMap) = [] →
                uniqueDocsArray = splice orama st uniqueDocsArray) as Hempty.
  { intros st Hst Hpm. rewrite splice_no_pins; [|done|].
    - by rewrite unpinnedResults_nothing_placed.
    - unfold pinnedResults. by rewrite Hpm. }
  destruct (getMatchingRules pinningStore searchTerm) as [|rule matchingRules]; simpl.
  - apply Hempty; [apply initial_consistent|done].
  - destruct (promotionsMap (resolved orama (rule :: matchingRules))) eqn:Hpm; simpl; [|done].
    apply Hempty; [apply resolved_consistent|done].
Qed.

Lemma placedPins_elem_of orama st uniqueDocsArray p ts :
  consistent st →
  (p, ts) ∈ placedPins orama st uniqueDocsArray ↔
  ts ∈ pinnedResults orama st uniqueDocsArray ∧ Map_get ts.1 st.(promotionsMap) = Some p.
Proof.
  intros Hst. unfold placedPins. split.
  - intros Hin. apply pinsOf_elem_of in Hin; [|by apply sortedPinned_positions].
    simpl in Hin. by rewrite sortedPinnedResults_Permutation in Hin.
  - intros [Hin Hget]. unfold pinsOf. apply list_elem_of_fmap. exists ts.
    rewrite Hget. split; [done|]. by rewrite sortedPinnedResults_Permutation.
Qed.

Lemma NoDup_ids_filter_one (l : list TokenScore) ts :
  NoDup l.*1 → ts ∈ l → filter (λ x : TokenScore, x.1 = ts.1) l = [ts].
Proof.
  induction l as [|x l IH]; simpl.
  - intros _ Hin. by apply elem_of_nil in Hin.
  - rewrite NoDup_cons. intros [Hx Hl] [->|Hin]%elem_of_cons.
    + rewrite filter_cons_True by done. f_equal.
      apply filter_none, Forall_forall. intros y Hy Heq. apply Hx. rewrite <-Heq.
      by apply list_elem_of_fmap_2.
    + rewrite filter_cons_False; [by apply IH|].
      intros Heq. apply Hx. rewrite Heq. by apply list_elem_of_fmap_2.
Qed.

Lemma applyPinningRules_Permutation orama pinningStore uniqueDocsArray searchTerm :
  let st := resolved orama (getMatchingRules pinningStore searchTerm) in
  applyPinningRules orama pinningStore uniqueDocsArray searchTerm
  ≡ₚ unpinnedResults st uniqueDocsArray ++ pinnedResults orama st uniqueDocsArray.
Proof.
  intros st. rewrite applyPinningRules_splice.
  apply splice_Permutation, resolved_consistent.
Qed.

(** A surviving pin is the only entry of the output for its document. *)
Lemma applyPinningRules_once orama pinningStore uniqueDocsArray searchTerm ts :
  let st := resolved orama (getMatchingRules pinningStore searchTerm) in
  ts ∈ pinnedResults orama st uniqueDocsArray →
  filter (λ x : TokenScore, x.1 = ts.1)
    (applyPinningRules orama pinningStore uniqueDocsArray searchTerm) = [ts].
Proof.
  intros st Hts.
  assert (consistent st) as Hst by apply resolved_consistent.
  apply Permutation_singleton_r.
  rewrite applyPinningRules_Permutation, filter_app. fold st.
  rewrite (filter_none _ (unpinnedResults st uniqueDocsArray)).
  - simpl. rewrite NoDup_ids_filter_one; [done|by apply pinnedResults_NoDup|done].
  - apply Forall_forall. intros x [Hx _]%list_elem_of_filter Heq.
    apply Hx. rewrite Heq. by apply (pinned_in_set orama st uniqueDocsArray).
Qed.

(** ** The properties of the specification *)

Example scenario_E2 :
  applyPinningRules Scenario.engine Scenario.storeE2 Scenario.organic (Some "featured")
  = [(2, 1000000%Z); (1, 9%Z); (3, 7%Z)].
Proof. vm_compute. reflexivity. Qed.

Example scenario_E3 :
  applyPinningRules Scenario.engine Scenario.storeE3 Scenario.organic (Some "featured")
  = [(2, 1000000%Z); (1, 9%Z); (3, 7%Z)].
Proof. vm_compute. reflexivity. Qed.

Example scenario_E4 :
  applyPinningRules Scenario.engine Scenario.storeE4 Scenario.organic (Some "Boost")
  = [(1, 9%Z); (2, 8%Z); (4, 0%Z); (3, 7%Z)].
Proof. vm_compute. reflexivity. Qed.

(** C8: if no rule matches the query (the matched rule list is empty),
    [applyPinningRules] returns the organic input list unchanged. *)
Theorem no_matching_rule_identity orama pinningStore uniqueDocsArray searchTerm :
  getMatchingRules pinningStore searchTerm = [] →
  applyPinningRules orama pinningStore uniqueDocsArray searchTerm = uniqueDocsArray.
Proof. intros Hnone. unfold applyPinningRules. by rewrite Hnone. Qed.

Lemma no_matching_rule_identity_witness :
  getMatchingRules Scenario.storeE2 (Some "anything") = []
  ∧ applyPinningRules Scenario.engine Scenario.storeE2 Scenario.organic (Some "anything")
    = Scenario.organic.
Proof.
  split; [vm_compute; reflexivity|].
  apply no_matching_rule_identity. vm_compute. reflexivity.
Defined.

(** C4: the organic documents that are not pinned appear in the output in
    exactly the order (and with the scores) they have in the organic list:
    dropping the pinned ids from the output and from the organic list gives
    the same list. *)
Theorem unpinned_order_preserved orama pinningStore uniqueDocsArray searchTerm :
  let st := resolved orama (getMatchingRules pinningStore searchTerm) in
  filter (λ ts, ts.1 ∉ st.(pinnedInternalIds))
    (applyPinningRules orama pinningStore uniqueDocsArray searchTerm)
  = filter (λ ts, ts.1 ∉ st.(pinnedInternalIds)) uniqueDocsArray.
Proof.
  intros st. rewrite applyPinningRules_splice.
  apply splice_unpinned, resolved_consistent.
Qed.

(** C10: no surviving pin is lost. The output holds the unpinned organic
    entries and the surviving pins (the entries of [promotionsMap] that pass
    the existence check), each exactly once; its length is the number of
    unpinned entries plus the number of surviving pins. *)
Theorem surviving_pins_kept orama pinningStore uniqueDocsArray searchTerm :
  let st := resolved orama (getMatchingRules pinningStore searchTerm) in
  let out := applyPinningRules orama pinningStore uniqueDocsArray searchTerm in
  out ≡ₚ unpinnedResults st uniqueDocsArray ++ pinnedResults orama st uniqueDocsArray
  ∧ length out
    = length (unpinnedResults st uniqueDocsArray)
      + length (pinnedResults orama st uniqueDocsArray)
  ∧ ∀ ts, ts ∈ pinnedResults orama st uniqueDocsArray →
          filter (λ x : TokenScore, x.1 = ts.1) out = [ts].
Proof.
  intros st out.
  pose proof (applyPinningRules_Permutation orama pinningStore uniqueDocsArray searchTerm)
    as Hperm.
  split_and!; [done|by unfold out; rewrite Hperm, length_app|].
  intros ts Hts. by apply applyPinningRules_once.
Qed.

(** C5: when the organic list has no internal id twice, neither has the
    output; and every internal id of the output is an id of the organic list
    or the resolved id of a promotion of a matching rule whose document is in
    the document store. *)
Theorem output_ids_unique_and_known orama pinningStore uniqueDocsArray searchTerm :
  NoDup uniqueDocsArray.*1 →
  let out := applyPinningRules orama pinningStore uniqueDocsArray searchTerm in
  NoDup out.*1
  ∧ ∀ internalId, internalId ∈ out.*1 →
      internalId ∈ uniqueDocsArray.*1
      ∨ ∃ promotion,
          promotion ∈ flatPromotions (getMatchingRules pinningStore searchTerm)
          ∧ getInternalDocumentId orama.(internalDocumentIDStore) promotion.(doc_id)
            = Some internalId
          ∧ is_Some (documentsStore_get orama.(docs) internalId).
Proof.
  intros Hnd out.
  set (st := resolved orama (getMatchingRules pinningStore searchTerm)).
  assert (consistent st) as Hst by apply resolved_consistent.
  pose proof (applyPinningRules_Permutation orama pinningStore uniqueDocsArray searchTerm)
    as Hperm.
  fold st out in Hperm.
  split.
  - rewrite Hperm, fmap_app. apply NoDup_app. split_and!.
    + eapply sublist_NoDup; [exact Hnd|]. apply fmap_sublist. apply sublist_filter.
    + intros i (x & -> & [Hx _]%list_elem_of_filter)%list_elem_of_fmap
               (y & Heq & Hy)%list_elem_of_fmap.
      apply Hx. rewrite Heq. by apply (pinned_in_set orama st uniqueDocsArray).
    + by apply pinnedResults_NoDup.
  - intros i (ts & -> & Hts)%list_elem_of_fmap.
    rewrite Hperm in Hts. apply elem_of_app in Hts as [Hts|Hts].
    + left. apply list_elem_of_filter in Hts as [_ Hts]. by apply list_elem_of_fmap_2.
    + destruct (decide (ts.1 ∈ uniqueDocsArray.*1)) as [|Hout]; [by left|right].
      apply pinnedResults_elem_of in Hts as (p & Hin & Hpin).
      apply resolved_provenance in Hin as (pr & Hpr & Hid & _). simpl in Hid.
      exists pr. split_and!; [done..|].
      rewrite pin_entry_outside in Hpin by done.
      by destruct (documentsStore_get _ _).
Qed.

Lemma output_ids_unique_and_known_witness :
  NoDup Scenario.organic.*1
  ∧ NoDup (applyPinningRules Scenario.engine Scenario.storeE4 Scenario.organic
             (Some "boost")).*1.
Proof.
  assert (NoDup Scenario.organic.*1) as Hnd
    by (apply (bool_decide_unpack (NoDup _)); vm_compute; exact I).
  split; [exact Hnd|].
  apply (output_ids_unique_and_known Scenario.engine Scenario.storeE4
           Scenario.organic (Some "boost") Hnd).
Defined.

(** C6: a placed pin whose document is in the organic list is in the output
    with score [BASE_PIN_SCORE - p], [p] being its position, and
    [BASE_PIN_SCORE] is 1000000; a placed pin whose document is not in the
    organic list but is in the document store is in the output with score 0.
    In both cases it is the only entry of the output with that document. *)
Theorem pin_scores orama pinningStore uniqueDocsArray searchTerm internalId p :
  let st := resolved orama (getMatchingRules pinningStore searchTerm) in
  let out := applyPinningRules orama pinningStore uniqueDocsArray searchTerm in
  Map_get internalId st.(promotionsMap) = Some p →
  BASE_PIN_SCORE = 1000000%Z
  ∧ (internalId ∈ uniqueDocsArray.*1 →
     filter (λ x : TokenScore, x.1 = internalId) out
     = [(internalId, (BASE_PIN_SCORE - Z.of_nat p)%Z)])
  ∧ (internalId ∉ uniqueDocsArray.*1 →
     is_Some (documentsStore_get orama.(docs) internalId) →
     filter (λ x : TokenScore, x.1 = internalId) out = [(internalId, 0%Z)]).
Proof.
  intros st out Hget.
  pose proof (applyPinningRules_once orama pinningStore uniqueDocsArray searchTerm)
    as Honce.
  fold st out in Honce.
  apply Map_get_elem_of in Hget.
  split_and!; [done| |].
  - intros Hin. apply (Honce (internalId, (BASE_PIN_SCORE - Z.of_nat p)%Z)).
    apply pinnedResults_elem_of. exists p. split; [done|].
    by apply pin_entry_organic.
  - intros Hout [doc Hdoc]. apply (Honce (internalId, 0%Z)).
    apply pinnedResults_elem_of. exists p. split; [done|].
    change (pin_entry orama uniqueDocsArray (internalId, p) = Some (internalId, 0%Z)).
    rewrite pin_entry_outside by done. by rewrite Hdoc.
Qed.

Lemma pin_scores_witness :
  Map_get 2 (resolved Scenario.engine
               (getMatchingRules Scenario.storeE2 (Some "featured"))).(promotionsMap)
  = Some 0
  ∧ 2 ∈ Scenario.organic.*1
  ∧ filter (λ x : TokenScore, x.1 = 2)
      (applyPinningRules Scenario.engine Scenario.storeE2 Scenario.organic (Some "featured"))
    = [(2, (BASE_PIN_SCORE - Z.of_nat 0)%Z)].
Proof.
  assert (Map_get 2 (resolved Scenario.engine
            (getMatchingRules Scenario.storeE2 (Some "featured"))).(promotionsMap)
          = Some 0) as Hget by (vm_compute; reflexivity).
  assert (2 ∈ Scenario.organic.*1) as Hin
    by (apply (bool_decide_unpack (_ ∈ _)); vm_compute; exact I).
  split_and!; [exact Hget|exact Hin|].
  destruct (pin_scores Scenario.engine Scenario.storeE2 Scenario.organic
              (Some "featured") 2 0 Hget) as (_ & Hscore & _).
  exact (Hscore Hin).
Defined.

(** C9: after the interleaving walk, the pins whose position is at least the
    length of the list the walk built are appended, in ascending order of
    position; the pins are the surviving pinned results with the positions
    [promotionsMap] gives them. With three organic documents A, B, C and one
    valid pin X at position 10, the output is [A, B, C, X]. *)
Theorem remaining_pins_appended orama pinningStore uniqueDocsArray searchTerm :
  let st := resolved orama (getMatchingRules pinningStore searchTerm) in
  let pins := placedPins orama st uniqueDocsArray in
  let built := walked orama st uniqueDocsArray in
  applyPinningRules orama pinningStore uniqueDocsArray searchTerm
  = built ++ (filter (λ e, length built ≤ e.1) pins).*2
  ∧ ascending pins
  ∧ (∀ p ts, (p, ts) ∈ pins ↔
             ts ∈ pinnedResults orama st uniqueDocsArray
             ∧ Map_get ts.1 st.(promotionsMap) = Some p)
  ∧ applyPinningRules Scenario.engine Scenario.storeE6 Scenario.organic (Some "featured")
    = Scenario.organic ++ [(5, 0%Z)].
Proof.
  intros st pins built.
  assert (consistent st) as Hst by apply resolved_consistent.
  split_and!.
  - rewrite applyPinningRules_splice. by apply splice_walked.
  - by apply placedPins_ascending.
  - intros p ts. by apply placedPins_elem_of.
  - vm_compute. reflexivity.
Qed.

(** C2, as the code has it: a surviving pin whose position is smaller than
    the length of the list built by the interleaving walk (the list before
    the remaining pins are appended) sits at its position in the output. *)
Theorem pin_position_honored orama pinningStore uniqueDocsArray searchTerm ts p :
  let st := resolved orama (getMatchingRules pinningStore searchTerm) in
  ts ∈ pinnedResults orama st uniqueDocsArray →
  Map_get ts.1 st.(promotionsMap) = Some p →
  p < length (walked orama st uniqueDocsArray) →
  applyPinningRules orama pinningStore uniqueDocsArray searchTerm !! p = Some ts.
Proof.
  intros st Hts Hget Hlt.
  assert (consistent st) as Hst by apply resolved_consistent.
  rewrite applyPinningRules_splice.
  apply (splice_lookup orama st uniqueDocsArray Hst (p, ts)); [|done].
  by apply placedPins_elem_of.
Qed.

Lemma pin_position_honored_witness :
  let st := resolved Scenario.engine (getMatchingRules Scenario.storeE4 (Some "boost")) in
  (4, 0%Z) ∈ pinnedResults Scenario.engine st Scenario.organic
  ∧ Map_get 4 st.(promotionsMap) = Some 2
  ∧ 2 < length (walked Scenario.engine st Scenario.organic)
  ∧ applyPinningRules Scenario.engine Scenario.storeE4 Scenario.organic (Some "boost") !! 2
    = Some (4, 0%Z).
Proof.
  intros st.
  assert ((4, 0%Z) ∈ pinnedResults Scenario.engine st Scenario.organic) as Hts
    by (vm_compute; apply list_elem_of_here).
  assert (Map_get 4 st.(promotionsMap) = Some 2) as Hget by (vm_compute; reflexivity).
  assert (2 < length (walked Scenario.engine st Scenario.organic)) as Hlt
    by (vm_compute; lia).
  split_and!; [exact Hts|exact Hget|exact Hlt|].
  exact (pin_position_honored Scenario.engine Scenario.storeE4 Scenario.organic
           (Some "boost") (4, 0%Z) 2 Hts Hget Hlt).
Defined.

(** C2, as stated, fails: with no organic result and two valid pins at
    positions 1 and 2, the output is the two pins in that order; the pin
    claimed at position 1 is a surviving pin, 1 is smaller than the length of
    the output, and the output holds the other pin at index 1. *)
Lemma pin_position_counterexample :
  let st := resolved Scenario.engine (getMatchingRules Scenario.storeSparse (Some "featured")) in
  let out := applyPinningRules Scenario.engine Scenario.storeSparse [] (Some "featured") in
  (4, 0%Z) ∈ pinnedResults Scenario.engine st []
  ∧ Map_get 4 st.(promotionsMap) = Some 1
  ∧ out = [(4, 0%Z); (5, 0%Z)]
  ∧ 1 < length out
  ∧ out !! 1 ≠ Some (4, 0%Z).
Proof.
  intros st out. split_and!.
  - vm_compute. apply list_elem_of_here.
  - vm_compute. reflexivity.
  - vm_compute. reflexivity.
  - vm_compute. lia.
  - vm_compute. intros [=].
Qed.

(** C7: a stale promotion is dropped, and the function is total (nothing is
    raised): a promotion whose document id does not resolve leaves the
    conflict-resolution state as it is; a document that is neither in the
    organic list nor in the document store never appears in the output; and
    when every promotion of the matching rules is stale, the output is the
    organic list. *)
Theorem stale_promotions_dropped orama pinningStore uniqueDocsArray searchTerm :
  let matchingRules := getMatchingRules pinningStore searchTerm in
  let out := applyPinningRules orama pinningStore uniqueDocsArray searchTerm in
  (∀ st promotion,
     getInternalDocumentId orama.(internalDocumentIDStore) promotion.(doc_id) = None →
     resolve_step orama st promotion = st)
  ∧ (∀ internalId,
       internalId ∉ uniqueDocsArray.*1 →
       documentsStore_get orama.(docs) internalId = None →
       internalId ∉ out.*1)
  ∧ (Forall (stale orama uniqueDocsArray) (flatPromotions matchingRules) →
     out = uniqueDocsArray).
Proof.
  intros matchingRules out.
  set (st := resolved orama matchingRules).
  assert (consistent st) as Hst by apply resolved_consistent.
  split_and!.
  - intros st' pr Hid. unfold resolve_step. by rewrite Hid.
  - intros i Hout Hdoc (ts & -> & Hts)%list_elem_of_fmap.
    unfold out in Hts. rewrite applyPinningRules_Permutation in Hts.
    apply elem_of_app in Hts as [Hts|Hts].
    + apply list_elem_of_filter in Hts as [_ Hts].
      apply Hout. by apply list_elem_of_fmap_2.
    + apply pinnedResults_elem_of in Hts as (p & _ & Hpin).
      rewrite pin_entry_outside in Hpin by done. by rewrite Hdoc in Hpin.
  - rewrite Forall_forall. intros Hstale.
    assert (∀ e, e ∈ st.(promotionsMap) →
              (e.1 ∉ uniqueDocsArray.*1) ∧ documentsStore_get orama.(docs) e.1 = None)
      as Hgone.
    { intros e (pr & Hpr & Hid & _)%resolved_provenance.
      specialize (Hstale _ Hpr). unfold stale in Hstale. by rewrite Hid in Hstale. }
    unfold out. rewrite applyPinningRules_splice. fold matchingRules st.
    rewrite splice_no_pins; [|done|].
    + apply filter_all, Forall_forall. intros ts Hts Hpinned.
      apply (consistent_pinned st Hst) in Hpinned.
      apply list_elem_of_fmap in Hpinned as (e & Heq & He).
      destruct (Hgone _ He) as [Hout _]. apply Hout. rewrite <-Heq.
      by apply list_elem_of_fmap_2.
    + apply elem_of_nil_inv. intros ts (p & Hin & Hpin)%pinnedResults_elem_of.
      destruct (Hgone _ Hin) as [Hout Hdoc]. simpl in Hout, Hdoc.
      rewrite pin_entry_outside in Hpin by done. by rewrite Hdoc in Hpin.
Qed.

Lemma stale_promotions_dropped_witness :
  Forall (stale Scenario.engine Scenario.organic)
    (flatPromotions (getMatchingRules Scenario.storeE5 (Some "featured")))
  ∧ applyPinningRules Scenario.engine Scenario.storeE5 Scenario.organic (Some "featured")
    = Scenario.organic.
Proof.
  assert (Forall (stale Scenario.engine Scenario.organic)
            (flatPromotions (getMatchingRules Scenario.storeE5 (Some "featured"))))
    as Hstale.
  { change (flatPromotions (getMatchingRules Scenario.storeE5 (Some "featured")))
      with [mkPromotion "gone" 0; mkPromotion "nope" 1].
    repeat constructor.
    - apply (bool_decide_unpack (_ ∉ _)). vm_compute. exact I. }
  split; [exact Hstale|].
  destruct (stale_promotions_dropped Scenario.engine Scenario.storeE5 Scenario.organic
              (Some "featured")) as (_ & _ & Hall).
  exact (Hall Hstale).
Defined.

(** ** Promotions in position order *)

Lemma promotion_sorted_app_le l1 l2 x y :
  promotion_sorted (l1 ++ l2) → x ∈ l1 → y ∈ l2 → position x ≤ position y.
Proof.
  intros Hsorted Hx Hy.
  pose proof (StronglySorted_app_1_elem_of _ _ _ _ _ Hsorted Hx Hy) as Hle.
  by apply Nat.leb_le.
Qed.

Lemma placed_below_mono st q q' : placed_below st q → q ≤ q' → placed_below st q'.
Proof. intros Hst Hle p Hp. specialize (Hst _ Hp). lia. Qed.

(** The state reached after a prefix of a sorted list of promotions. *)
Lemma resolve_prefix orama before promotion after :
  promotion_sorted (before ++ promotion :: after) →
  consistent (resolve_promotions orama before initialPinState)
  ∧ placed_below (resolve_promotions orama before initialPinState) (position promotion).
Proof.
  intros Hsorted. split.
  - apply (resolve_promotions_sorted_ind orama (λ _, True)); try done.
    + by apply StronglySorted_app_1_l in Hsorted.
    + apply initial_consistent.
    + apply Forall_forall. intros. apply initial_placed_below.
  - apply resolve_promotions_placed_below; [apply initial_placed_below|].
    apply Forall_forall. intros x Hx.
    apply (promotion_sorted_app_le _ _ _ _ Hsorted Hx), list_elem_of_here.
Qed.

(** Where the stable sort puts a promotion: before it come the promotions
    with a smaller position and those with the same position that precede it
    in the unsorted list. *)
Lemma sort_insert_split a l :
  ∃ S1 S2, sort_insert promotion_le a l = S1 ++ a :: S2
           ∧ l = S1 ++ S2
           ∧ Forall (λ x, position x < position a) S1.
Proof.
  induction l as [|y l (S1 & S2 & Hins & Hl & Hlt)]; simpl.
  - by exists [], [].
  - destruct (promotion_le a y) eqn:Hay.
    + by exists [], (y :: l).
    + exists (y :: S1), S2. rewrite Hins, Hl. split_and!; [done..|].
      constructor; [|done]. unfold promotion_le in Hay. by apply Nat.leb_gt in Hay.
Qed.

Lemma Array_sort_split before a after :
  ∃ S1 S2, Array_sort promotion_le (before ++ a :: after) = S1 ++ a :: S2
           ∧ Forall (λ x, position x < position a
                          ∨ (position x = position a ∧ x ∈ before)) S1.
Proof.
  induction before as [|z before (S1 & S2 & Hsort & Hlt)]; simpl.
  - destruct (sort_insert_split a (Array_sort promotion_le after))
      as (S1 & S2 & Hins & _ & Hlt).
    exists S1, S2. split; [done|].
    eapply Forall_impl; [exact Hlt|]. intros x Hx. by left.
  - rewrite Hsort. destruct (promotion_le z a) eqn:Hza.
    + exists (sort_insert promotion_le z S1), S2.
      split; [by apply sort_insert_app_l|].
      apply Forall_forall. intros x Hx. rewrite sort_insert_Permutation in Hx.
      apply elem_of_cons in Hx as [->|Hx].
      * unfold promotion_le in Hza. apply Nat.leb_le in Hza.
        destruct (decide (position z = position a)) as [Heq|Hne].
        -- right. split; [done|apply list_elem_of_here].
        -- left. lia.
      * rewrite Forall_forall in Hlt. destruct (Hlt _ Hx) as [?|[? ?]]; [by left|].
        right. split; [done|by apply list_elem_of_further].
    + exists S1, (sort_insert promotion_le z S2). split.
      * replace (S1 ++ a :: S2) with ((S1 ++ [a]) ++ S2) by (by rewrite <-app_assoc).
        rewrite sort_insert_app_r; [by rewrite <-app_assoc|].
        unfold promotion_le in Hza |- *. apply Nat.leb_gt in Hza.
        apply Forall_app. split; [|by constructor; [apply Nat.leb_gt|]].
        eapply Forall_impl; [exact Hlt|]. intros x Hx. simpl. apply Nat.leb_gt.
        destruct Hx as [?|[? _]]; lia.
      * eapply Forall_impl; [exact Hlt|]. intros x [?|[? ?]]; [by left|].
        right. split; [done|by apply list_elem_of_further].
Qed.

(** C1, as stated, fails: the flattened promotions are (A, 1), (B, 1),
    (A, 0), all resolving, A and B different documents. The promotion (A, 1)
    comes before (B, 1) and asks for the same position, yet B takes position
    1 (A is placed at 0, the promotion (A, 0) being processed first), and the
    output pins both. *)
Lemma first_promotion_wins_counterexample :
  let matchingRules := getMatchingRules Scenario.storeRescue (Some "featured") in
  let st := resolved Scenario.engine matchingRules in
  flatPromotions matchingRules
  = [mkPromotion "A" 1; mkPromotion "B" 1; mkPromotion "A" 0]
  ∧ getInternalDocumentId Scenario.engine.(internalDocumentIDStore) "A" = Some 1
  ∧ getInternalDocumentId Scenario.engine.(internalDocumentIDStore) "B" = Some 2
  ∧ Map_get 1 st.(promotionsMap) ≠ Some 1
  ∧ Map_get 2 st.(promotionsMap) = Some 1
  ∧ applyPinningRules Scenario.engine Scenario.storeRescue
      [Scenario.C; Scenario.A; Scenario.B] (Some "featured")
    = [(1, 1000000%Z); (2, 999999%Z); (3, 7%Z)].
Proof.
  intros matchingRules st.
  split_and!; try (vm_compute; reflexivity).
  vm_compute. intros [=].
Qed.

Lemma surviving_pins_kept_witness :
  let st := resolved Scenario.engine (getMatchingRules Scenario.storeE6 (Some "featured")) in
  let out := applyPinningRules Scenario.engine Scenario.storeE6 Scenario.organic
               (Some "featured") in
  (5, 0%Z) ∈ pinnedResults Scenario.engine st Scenario.organic
  ∧ length out = 4
  ∧ filter (λ x : TokenScore, x.1 = 5) out = [(5, 0%Z)].
Proof.
  intros st out.
  assert ((5, 0%Z) ∈ pinnedResults Scenario.engine st Scenario.organic) as Hpin
    by (vm_compute; apply list_elem_of_here).
  destruct (surviving_pins_kept Scenario.engine Scenario.storeE6 Scenario.organic
              (Some "featured")) as (_ & Hlen & Honce).
  split_and!; [exact Hpin| |exact (Honce _ Hpin)].
  etrans; [exact Hlen|]. vm_compute. reflexivity.
Defined.

(** ** Further properties of the splicer *)

Lemma applyPinningRules_NoDup orama pinningStore uniqueDocsArray searchTerm :
  NoDup uniqueDocsArray.*1 →
  NoDup (applyPinningRules orama pinningStore uniqueDocsArray searchTerm).*1.
Proof.
  intros Hnd.
  set (st := resolved orama (getMatchingRules pinningStore searchTerm)).
  assert (consistent st) as Hst by apply resolved_consistent.
  rewrite applyPinningRules_Permutation, fmap_app. fold st.
  apply NoDup_app. split_and!.
  - eapply sublist_NoDup; [exact Hnd|]. apply fmap_sublist. apply sublist_filter.
  - intros i (x & -> & [Hx _]%list_elem_of_filter)%list_elem_of_fmap
             (y & Heq & Hy)%list_elem_of_fmap.
    apply Hx. rewrite Heq. by apply (pinned_in_set orama st uniqueDocsArray).
  - by apply pinnedResults_NoDup.
Qed.

Lemma organic_id_kept orama pinningStore uniqueDocsArray searchTerm internalId :
  internalId ∈ uniqueDocsArray.*1 →
  internalId ∈ (applyPinningRules orama pinningStore uniqueDocsArray searchTerm).*1.
Proof.
  intros (ts & -> & Hts)%list_elem_of_fmap.
  set (st := resolved orama (getMatchingRules pinningStore searchTerm)).
  assert (consistent st) as Hst by apply resolved_consistent.
  rewrite applyPinningRules_Permutation, fmap_app, elem_of_app. fold st.
  destruct (decide (ts.1 ∈ st.(pinnedInternalIds))) as [Hpinned|Hfree].
  - right. apply (consistent_pinned st Hst) in Hpinned.
    apply list_elem_of_fmap in Hpinned as ([i p] & Heq & He). simpl in Heq. subst i.
    apply (list_elem_of_fmap_2 fst _ (ts.1, (BASE_PIN_SCORE - Z.of_nat p)%Z)).
    apply pinnedResults_elem_of. exists p. split; [done|].
    apply pin_entry_organic. by apply list_elem_of_fmap_2.
  - left. apply list_elem_of_fmap_2. by apply list_elem_of_filter.
Qed.

(** X1: pinning never drops an organic result: every document of the organic
    list is in the output, and when the organic list has no document twice
    the output is at least as long. *)
Theorem organic_documents_kept orama pinningStore uniqueDocsArray searchTerm :
  let out := applyPinningRules orama pinningStore uniqueDocsArray searchTerm in
  (∀ internalId, internalId ∈ uniqueDocsArray.*1 → internalId ∈ out.*1)
  ∧ (NoDup uniqueDocsArray.*1 → length uniqueDocsArray ≤ length out).
Proof.
  intros out. split; [intros i; apply organic_id_kept|].
  intros Hnd.
  assert (length uniqueDocsArray.*1 ≤ length out.*1) as Hlen.
  { apply submseteq_length, NoDup_submseteq; [done|].
    intros i. apply organic_id_kept. }
  by rewrite !length_fmap in Hlen.
Qed.

Lemma organic_documents_kept_witness :
  NoDup Scenario.organic.*1
  ∧ length Scenario.organic
    ≤ length (applyPinningRules Scenario.engine Scenario.storeE4 Scenario.organic
                (Some "boost")).
Proof.
  assert (NoDup Scenario.organic.*1) as Hnd
    by (apply (bool_decide_unpack (NoDup _)); vm_compute; exact I).
  split; [exact Hnd|].
  exact (proj2 (organic_documents_kept Scenario.engine Scenario.storeE4
                  Scenario.organic (Some "boost")) Hnd).
Defined.

(** X2: when the organic list has no document twice and every placed
    document is one of its documents, pinning only reorders: the output has
    the same documents as the organic list, each once. *)
Theorem pinning_organic_only_reorders orama pinningStore uniqueDocsArray searchTerm :
  let st := resolved orama (getMatchingRules pinningStore searchTerm) in
  let out := applyPinningRules orama pinningStore uniqueDocsArray searchTerm in
  NoDup uniqueDocsArray.*1 →
  Forall (λ e, e.1 ∈ uniqueDocsArray.*1) st.(promotionsMap) →
  out.*1 ≡ₚ uniqueDocsArray.*1 ∧ length out = length uniqueDocsArray.
Proof.
  intros st out Hnd Hall.
  assert (out.*1 ≡ₚ uniqueDocsArray.*1) as Hperm.
  { apply NoDup_Permutation; [by apply applyPinningRules_NoDup|done|].
    intros i. split; [|apply organic_id_kept].
    intros (ts & -> & Hts)%list_elem_of_fmap.
    unfold out in Hts. rewrite applyPinningRules_Permutation in Hts. fold st in Hts.
    apply elem_of_app in Hts as [Hts|Hts].
    - apply list_elem_of_filter in Hts as [_ Hts]. by apply list_elem_of_fmap_2.
    - apply pinnedResults_elem_of in Hts as (p & Hin & _).
      rewrite Forall_forall in Hall. apply (Hall _ Hin). }
  split; [done|].
  apply Permutation_length in Hperm. by rewrite !length_fmap in Hperm.
Qed.

Lemma pinning_organic_only_reorders_witness :
  let st := resolved Scenario.engine (getMatchingRules Scenario.storeE3 (Some "featured")) in
  let out := applyPinningRules Scenario.engine Scenario.storeE3 Scenario.organic
               (Some "featured") in
  NoDup Scenario.organic.*1
  ∧ Forall (λ e, e.1 ∈ Scenario.organic.*1) st.(promotionsMap)
  ∧ out.*1 ≡ₚ Scenario.organic.*1
  ∧ length out = length Scenario.organic.
Proof.
  intros st out.
  assert (NoDup Scenario.organic.*1) as Hnd
    by (apply (bool_decide_unpack (NoDup _)); vm_compute; exact I).
  assert (Forall (λ e : InternalDocumentID * nat, e.1 ∈ Scenario.organic.*1)
            st.(promotionsMap)) as Hall.
  { replace (promotionsMap st) with [(2, 0)] by (vm_compute; reflexivity).
    repeat constructor. }
  split_and!; [exact Hnd|exact Hall|..];
    apply (pinning_organic_only_reorders Scenario.engine Scenario.storeE3
             Scenario.organic (Some "featured") Hnd Hall).
Defined.

(** How far the interleaving walk gets: a pin whose position is at most the
    number of unpinned results still to push is reached. *)
Lemma merge_from_reach pins fuel cur unpinned e :
  ascending pins → e ∈ pins → cur ≤ e.1 ≤ cur + length unpinned →
  fuel = length unpinned + length (pins_from pins cur) →
  e.1 < cur + length (merge_from pins fuel cur unpinned).
Proof.
  intros Hasc He. revert cur unpinned.
  induction fuel as [|fuel IH]; intros cur unpinned Hrange Hfuel; simpl.
  - assert (e ∈ pins_from pins cur) as Hin
      by (apply list_elem_of_filter; split; [lia|done]).
    destruct (pins_from pins cur); [by apply elem_of_nil in Hin|simpl in *; lia].
  - destruct (Map_get cur pins) as [t|] eqn:Hcur; simpl.
    + destruct (decide (e.1 = cur)) as [->|Hne]; [lia|].
      rewrite (pins_from_here _ _ _ Hasc Hcur) in Hfuel. simpl in Hfuel.
      specialize (IH (S cur) unpinned). lia.
    + assert (e.1 ≠ cur) as Hne.
      { intros Heq. apply Map_get_None in Hcur. apply Hcur. rewrite <-Heq.
        by apply list_elem_of_fmap_2. }
      destruct unpinned as [|u rest]; simpl in *; [lia|].
      rewrite (pins_from_skip _ _ Hcur) in Hfuel.
      specialize (IH (S cur) rest). lia.
Qed.

(** X3: a surviving pin whose position is at most the number of unpinned
    organic results sits exactly at its position in the output; in
    particular a surviving pin at position 0 is the first result. *)
Theorem pin_within_unpinned_honored orama pinningStore uniqueDocsArray searchTerm ts p :
  let st := resolved orama (getMatchingRules pinningStore searchTerm) in
  ts ∈ pinnedResults orama st uniqueDocsArray →
  Map_get ts.1 st.(promotionsMap) = Some p →
  p ≤ length (unpinnedResults st uniqueDocsArray) →
  applyPinningRules orama pinningStore uniqueDocsArray searchTerm !! p = Some ts.
Proof.
  intros st Hts Hget Hle.
  assert (consistent st) as Hst by apply resolved_consistent.
  assert ((p, ts) ∈ placedPins orama st uniqueDocsArray) as Hin
    by by apply placedPins_elem_of.
  rewrite applyPinningRules_splice.
  apply (splice_lookup orama st uniqueDocsArray Hst (p, ts)); [done|].
  rewrite walked_merge_from by done.
  apply (merge_from_reach _ _ 0 _ (p, ts)).
  - by apply placedPins_ascending.
  - done.
  - simpl. lia.
  - by rewrite pins_from_0, placedPins_length.
Qed.

Lemma pin_within_unpinned_honored_witness :
  let st := resolved Scenario.engine (getMatchingRules Scenario.storeE2 (Some "featured")) in
  (2, 1000000%Z) ∈ pinnedResults Scenario.engine st Scenario.organic
  ∧ Map_get 2 st.(promotionsMap) = Some 0
  ∧ 0 ≤ length (unpinnedResults st Scenario.organic)
  ∧ applyPinningRules Scenario.engine Scenario.storeE2 Scenario.organic (Some "featured") !! 0
    = Some (2, 1000000%Z).
Proof.
  intros st.
  assert ((2, 1000000%Z) ∈ pinnedResults Scenario.engine st Scenario.organic) as Hts
    by (vm_compute; apply list_elem_of_here).
  assert (Map_get 2 st.(promotionsMap) = Some 0) as Hget by (vm_compute; reflexivity).
  assert (0 ≤ length (unpinnedResults st Scenario.organic)) as Hle by lia.
  split_and!; [exact Hts|exact Hget|exact Hle|].
  exact (pin_within_unpinned_honored Scenario.engine Scenario.storeE2 Scenario.organic
           (Some "featured") (2, 1000000%Z) 0 Hts Hget Hle).
Defined.

Lemma lookup_app_add {A} (l1 l2 : list A) j x :
  l2 !! j = Some x → (l1 ++ l2) !! (length l1 + j) = Some x.
Proof.
  intros Hj. rewrite lookup_app_r by lia.
  by replace (length l1 + j - length l1) with j by lia.
Qed.

Lemma pins_from_lookup_ge pins c j e :
  ascending pins → pins_from pins c !! j = Some e → c + j ≤ e.1.
Proof.
  unfold pins_from. intros Hasc. revert c j.
  induction Hasc as [|[q u] l _ IH Hhd]; intros c j; simpl; [done|].
  rewrite filter_cons. simpl. destruct (decide (c ≤ q)) as [Hle|Hgt]; [|apply IH].
  destruct j as [|j]; simpl.
  - intros [= <-]. simpl. lia.
  - rewrite Forall_forall in Hhd.
    rewrite (filter_all (λ e : nat * TokenScore, c ≤ e.1) l).
    + rewrite <-(filter_all (λ e : nat * TokenScore, S q ≤ e.1) l).
      * intros Hj. specialize (IH _ _ Hj). lia.
      * apply Forall_forall. intros x Hx. specialize (Hhd _ Hx). simpl in Hhd. lia.
    + apply Forall_forall. intros x Hx. specialize (Hhd _ Hx). simpl in Hhd. lia.
Qed.

(** X4: a surviving pin is never placed later than it asks: it sits in the
    output at an index that is at most its position. *)
Theorem pin_never_later orama pinningStore uniqueDocsArray searchTerm ts p :
  let st := resolved orama (getMatchingRules pinningStore searchTerm) in
  ts ∈ pinnedResults orama st uniqueDocsArray →
  Map_get ts.1 st.(promotionsMap) = Some p →
  ∃ i, i ≤ p
       ∧ applyPinningRules orama pinningStore uniqueDocsArray searchTerm !! i = Some ts.
Proof.
  intros st Hts Hget.
  assert (consistent st) as Hst by apply resolved_consistent.
  assert ((p, ts) ∈ placedPins orama st uniqueDocsArray) as Hin
    by by apply placedPins_elem_of.
  rewrite applyPinningRules_splice. fold st.
  destruct (decide (p < length (walked orama st uniqueDocsArray))) as [Hlt|Hge].
  - exists p. split; [done|].
    by apply (splice_lookup orama st uniqueDocsArray Hst (p, ts)).
  - assert ((p, ts) ∈ pins_from (placedPins orama st uniqueDocsArray)
                         (length (walked orama st uniqueDocsArray))) as Hfrom
      by (apply list_elem_of_filter; split; [simpl; lia|done]).
    apply list_elem_of_lookup in Hfrom as [j Hj].
    exists (length (walked orama st uniqueDocsArray) + j). split.
    + apply (pins_from_lookup_ge _ _ _ (p, ts)) in Hj; [done|].
      by apply placedPins_ascending.
    + rewrite splice_walked by done.
      apply lookup_app_add. rewrite list_lookup_fmap.
      exact (f_equal (fmap snd) Hj).
Qed.

Lemma pin_never_later_witness :
  let st := resolved Scenario.engine (getMatchingRules Scenario.storeE6 (Some "featured")) in
  (5, 0%Z) ∈ pinnedResults Scenario.engine st Scenario.organic
  ∧ Map_get 5 st.(promotionsMap) = Some 10
  ∧ ∃ i, i ≤ 10
         ∧ applyPinningRules Scenario.engine Scenario.storeE6 Scenario.organic
             (Some "featured") !! i = Some (5, 0%Z).
Proof.
  intros st.
  assert ((5, 0%Z) ∈ pinnedResults Scenario.engine st Scenario.organic) as Hts
    by (vm_compute; apply list_elem_of_here).
  assert (Map_get 5 st.(promotionsMap) = Some 10) as Hget by (vm_compute; reflexivity).
  split_and!; [exact Hts|exact Hget|].
  exact (pin_never_later Scenario.engine Scenario.storeE6 Scenario.organic
           (Some "featured") (5, 0%Z) 10 Hts Hget).
Defined.

(** The pins the walk pushes, followed by those it has not reached, are the
    pins from the start position on, in their order. *)
Lemma merge_from_pins (P : TokenScore → Prop) `{!∀ x, Decision (P x)}
    pins fuel cur unpinned :
  ascending pins → Forall (λ ts, ¬ P ts) unpinned → Forall (λ e, P e.2) pins →
  filter P (merge_from pins fuel cur unpinned)
    ++ (pins_from pins (cur + length (merge_from pins fuel cur unpinned))).*2
  = (pins_from pins cur).*2.
Proof.
  intros Hasc Hunp Hpins. revert cur unpinned Hunp.
  induction fuel as [|fuel IH]; intros cur unpinned Hunp; simpl.
  - by rewrite Nat.add_0_r.
  - destruct (Map_get cur pins) as [t|] eqn:Hcur; simpl.
    + rewrite filter_cons_True.
      * rewrite (pins_from_here _ _ _ Hasc Hcur), Nat.add_succ_r. simpl.
        f_equal. by apply (IH (S cur)).
      * rewrite Forall_forall in Hpins. apply (Hpins (cur, t)).
        by apply Map_get_elem_of.
    + destruct unpinned as [|u rest]; simpl.
      * by rewrite Nat.add_0_r.
      * apply Forall_cons in Hunp as [Hu Hrest].
        rewrite filter_cons_False by done.
        rewrite (pins_from_skip _ _ Hcur), Nat.add_succ_r. by apply (IH (S cur)).
Qed.

Lemma splice_pinned orama st uniqueDocsArray :
  consistent st →
  filter (λ ts, ts.1 ∈ st.(pinnedInternalIds)) (splice orama st uniqueDocsArray)
  = (placedPins orama st uniqueDocsArray).*2.
Proof.
  intros Hst.
  assert (Forall (λ e : nat * TokenScore, e.2.1 ∈ st.(pinnedInternalIds))
            (placedPins orama st uniqueDocsArray)) as Hpins.
  { apply Forall_forall. intros [p ts] [Hts _]%placedPins_elem_of; [|done].
    by apply (pinned_in_set orama st uniqueDocsArray). }
  rewrite splice_walked, filter_app by done.
  rewrite (filter_all _ (_.*2)).
  - rewrite walked_merge_from by done.
    pose proof (merge_from_pins (λ ts, ts.1 ∈ st.(pinnedInternalIds))
                  (placedPins orama st uniqueDocsArray)
                  (length (unpinnedResults st uniqueDocsArray)
                   + length (sortedPinnedResults orama st uniqueDocsArray))
                  0 (unpinnedResults st uniqueDocsArray)) as Hmerge.
    simpl in Hmerge. rewrite pins_from_0 in Hmerge. apply Hmerge.
    + by apply placedPins_ascending.
    + apply Forall_forall. intros ts [Hts _]%list_elem_of_filter. by intros ?.
    + done.
  - apply Forall_fmap, Forall_forall. intros e [_ He]%list_elem_of_filter.
    rewrite Forall_forall in Hpins. by apply Hpins.
Qed.

(** X5: the pinned results appear in the output in ascending order of their
    positions, whatever the order of the rules: the pinned entries of the
    output, read in output order, are the surviving pins sorted by
    position. *)
Theorem pins_in_position_order orama pinningStore uniqueDocsArray searchTerm :
  let st := resolved orama (getMatchingRules pinningStore searchTerm) in
  let pins := placedPins orama st uniqueDocsArray in
  filter (λ ts, ts.1 ∈ st.(pinnedInternalIds))
    (applyPinningRules orama pinningStore uniqueDocsArray searchTerm)
  = pins.*2
  ∧ ascending pins
  ∧ (∀ p ts, (p, ts) ∈ pins ↔
             ts ∈ pinnedResults orama st uniqueDocsArray
             ∧ Map_get ts.1 st.(promotionsMap) = Some p).
Proof.
  intros st pins.
  assert (consistent st) as Hst by apply resolved_consistent.
  split_and!.
  - rewrite applyPinningRules_splice. by apply splice_pinned.
  - by apply placedPins_ascending.
  - intros p ts. by apply placedPins_elem_of.
Qed.

(** X6: with an empty organic list the output is exactly the surviving pins,
    in ascending order of position. *)
Theorem empty_organic_gives_pins orama pinningStore searchTerm :
  let st := resolved orama (getMatchingRules pinningStore searchTerm) in
  let pins := placedPins orama st [] in
  applyPinningRules orama pinningStore [] searchTerm = pins.*2
  ∧ ascending pins
  ∧ (∀ p ts, (p, ts) ∈ pins ↔
             ts ∈ pinnedResults orama st [] ∧ Map_get ts.1 st.(promotionsMap) = Some p).
Proof.
  intros st pins.
  assert (consistent st) as Hst by apply resolved_consistent.
  split_and!.
  - rewrite applyPinningRules_splice. fold st. unfold pins.
    rewrite <-(splice_pinned orama st [] Hst).
    symmetry. apply filter_all, Forall_forall. intros ts Hts.
    rewrite (splice_Permutation orama st [] Hst) in Hts. simpl in Hts.
    by apply (pinned_in_set orama st []).
  - by apply placedPins_ascending.
  - intros p ts. by apply placedPins_elem_of.
Qed.

(** X7: the conflict resolution leaves a consistent placement: no document
    has two positions, no two documents have the same position, the taken
    positions are exactly the positions of the placed documents, and the
    pinned ids are exactly the placed documents. *)
Theorem resolution_consistent orama pinningStore searchTerm :
  let st := resolved orama (getMatchingRules pinningStore searchTerm) in
  NoDup st.(promotionsMap).*1
  ∧ NoDup st.(promotionsMap).*2
  ∧ (∀ p, p ∈ st.(positionsTaken) ↔ ∃ i, Map_get i st.(promotionsMap) = Some p)
  ∧ (∀ i, i ∈ st.(pinnedInternalIds) ↔ ∃ p, Map_get i st.(promotionsMap) = Some p).
Proof.
  intros st. destruct (resolved_consistent orama (getMatchingRules pinningStore searchTerm))
    as [Hk Hv Ht Hp]. fold st in Hk, Hv, Ht, Hp.
  split_and!; [done..| |].
  - intros p. rewrite Ht. split.
    + intros ([i q] & -> & He)%list_elem_of_fmap. exists i. by apply Map_get_Some.
    + intros [i Hi%Map_get_elem_of]. by apply (list_elem_of_fmap_2 snd _ (i, p)).
  - intros i. rewrite Hp. split.
    + intros ([j q] & -> & He)%list_elem_of_fmap. exists q. by apply Map_get_Some.
    + intros [p Hi%Map_get_elem_of]. by apply (list_elem_of_fmap_2 fst _ (i, p)).
Qed.

(** X8: a placement is never invented: a document placed at a position is
    the resolved document of some promotion of a matching rule that asks for
    exactly that position. *)
Theorem placement_comes_from_promotion orama pinningStore searchTerm internalId p :
  let matchingRules := getMatchingRules pinningStore searchTerm in
  Map_get internalId (resolved orama matchingRules).(promotionsMap) = Some p →
  ∃ promotion,
    promotion ∈ flatPromotions matchingRules
    ∧ getInternalDocumentId orama.(internalDocumentIDStore) promotion.(doc_id)
      = Some internalId
    ∧ promotion.(position) = p.
Proof.
  intros matchingRules Hget%Map_get_elem_of.
  by apply resolved_provenance in Hget.
Qed.

Lemma placement_comes_from_promotion_witness :
  let matchingRules := getMatchingRules Scenario.storeRescue (Some "featured") in
  Map_get 2 (resolved Scenario.engine matchingRules).(promotionsMap) = Some 1
  ∧ ∃ promotion,
      promotion ∈ flatPromotions matchingRules
      ∧ getInternalDocumentId Scenario.engine.(internalDocumentIDStore) promotion.(doc_id)
        = Some 2
      ∧ promotion.(position) = 1.
Proof.
  intros matchingRules.
  assert (Map_get 2 (resolved Scenario.engine matchingRules).(promotionsMap) = Some 1)
    as Hget by (vm_compute; reflexivity).
  split; [exact Hget|].
  exact (placement_comes_from_promotion Scenario.engine Scenario.storeRescue
           (Some "featured") 2 1 Hget).
Defined.

(** Once placed, a document keeps its position through the rest of a sorted
    run. *)
Lemma resolve_promotions_keeps orama l st k v :
  promotion_sorted l → consistent st →
  Forall (λ pr, placed_below st (position pr)) l →
  Map_get k st.(promotionsMap) = Some v →
  Map_get k (resolve_promotions orama l st).(promotionsMap) = Some v.
Proof.
  intros Hsorted Hst Hbelow Hget.
  apply (resolve_promotions_sorted_ind orama
           (λ s, Map_get k s.(promotionsMap) = Some v) l); try done.
  clear. intros s pr _ Hs Hbelow Hget. unfold resolve_step.
  destruct (getInternalDocumentId orama.(internalDocumentIDStore) pr.(doc_id))
    as [internalId|]; [|done].
  destruct (Map_get internalId s.(promotionsMap)) as [existingPosition|] eqn:Hex.
  - by rewrite (proj2 (Nat.ltb_ge _ _) (placed_below_get _ _ _ _ Hbelow Hex)).
  - case_bool_decide; [done|]. simpl.
    rewrite Map_get_set_ne; [done|congruence].
Qed.

(** The state after one more promotion of a sorted run, ready for the
    rest. *)
Lemma resolve_suffix orama before promotion after :
  promotion_sorted (before ++ promotion :: after) →
  let st := resolve_step orama (resolve_promotions orama before initialPinState) promotion in
  promotion_sorted after ∧ consistent st
  ∧ Forall (λ pr, placed_below st (position pr)) after.
Proof.
  intros Hsorted st.
  destruct (resolve_prefix orama _ _ _ Hsorted) as [Hst1 Hbelow1].
  split_and!.
  - apply StronglySorted_app_1_r in Hsorted.
    by apply StronglySorted_inv in Hsorted as [? _].
  - by apply resolve_step_consistent.
  - apply Forall_forall. intros pr Hpr.
    apply (placed_below_mono _ (position promotion)).
    + by apply resolve_step_placed_below.
    + apply (promotion_sorted_app_le (before ++ [promotion]) after);
        [by rewrite <-app_assoc| |done].
      rewrite elem_of_app, list_elem_of_singleton. by right.
Qed.

Lemma promotion_outcome orama matchingRules promotion internalId :
  promotion ∈ flatPromotions matchingRules →
  getInternalDocumentId orama.(internalDocumentIDStore) promotion.(doc_id)
  = Some internalId →
  let st := resolved orama matchingRules in
  (∃ q, Map_get internalId st.(promotionsMap) = Some q ∧ q ≤ promotion.(position))
  ∨ (∃ other, other ≠ internalId
              ∧ Map_get other st.(promotionsMap) = Some promotion.(position)).
Proof.
  intros Hin Hid st.
  rewrite <-allPromotions_Permutation in Hin.
  apply list_elem_of_split in Hin as (before & after & Hsplit).
  pose proof (allPromotions_sorted matchingRules) as Hsorted. rewrite Hsplit in Hsorted.
  destruct (resolve_prefix orama _ _ _ Hsorted) as [Hst1 Hbelow1].
  destruct (resolve_suffix orama _ _ _ Hsorted) as (Hafter & Hst2 & Hbelow2).
  unfold st, resolved, resolve_promotions. rewrite Hsplit, fold_left_app. simpl.
  set (st1 := resolve_promotions orama before initialPinState) in *.
  assert (∀ k v, Map_get k (resolve_step orama st1 promotion).(promotionsMap) = Some v →
            Map_get k (fold_left (resolve_step orama) after
                         (resolve_step orama st1 promotion)).(promotionsMap) = Some v)
    as Hkeep by (intros k v; by apply resolve_promotions_keeps).
  destruct (Map_get internalId st1.(promotionsMap)) as [q|] eqn:Hget.
  - left. exists q. split; [|by eapply placed_below_get].
    apply Hkeep. rewrite (resolve_step_placed _ _ _ _ _ Hid Hget); [done|].
    by eapply placed_below_get.
  - destruct (decide (promotion.(position) ∈ st1.(positionsTaken))) as [Htaken|Hfree].
    + right. pose proof (proj1 (consistent_taken st1 Hst1 _) Htaken) as Hvalue.
      apply list_elem_of_fmap in Hvalue as ([other q] & Heq & He). simpl in Heq. subst q.
      exists other. split.
      * intros ->. apply Map_get_None in Hget. apply Hget.
        by apply (list_elem_of_fmap_2 fst _ (internalId, position promotion)).
      * apply Hkeep. unfold resolve_step.
        rewrite Hid, Hget, bool_decide_eq_true_2 by done.
        apply Map_get_Some; [apply Hst1|done].
    + left. exists promotion.(position). split; [|done].
      apply Hkeep. unfold resolve_step.
      rewrite Hid, Hget, bool_decide_eq_false_2 by done. simpl.
      apply Map_get_set_eq.
Qed.

(** X9: a promotion that resolves is never ignored without a reason: at the
    end of the conflict resolution either its document is placed, at a
    position that is no greater than the one it asks for, or the position it
    asks for is held by another document. *)
Theorem promotion_placed_or_blocked orama pinningStore searchTerm promotion internalId :
  let matchingRules := getMatchingRules pinningStore searchTerm in
  let st := resolved orama matchingRules in
  promotion ∈ flatPromotions matchingRules →
  getInternalDocumentId orama.(internalDocumentIDStore) promotion.(doc_id)
  = Some internalId →
  (∃ q, Map_get internalId st.(promotionsMap) = Some q ∧ q ≤ promotion.(position))
  ∨ (∃ other, other ≠ internalId
              ∧ Map_get other st.(promotionsMap) = Some promotion.(position)).
Proof. intros matchingRules st Hin Hid. by apply promotion_outcome. Qed.

Lemma promotion_placed_or_blocked_witness :
  let matchingRules := getMatchingRules Scenario.storeE3 (Some "featured") in
  let st := resolved Scenario.engine matchingRules in
  mkPromotion "C" 0 ∈ flatPromotions matchingRules
  ∧ getInternalDocumentId Scenario.engine.(internalDocumentIDStore) "C" = Some 3
  ∧ ((∃ q, Map_get 3 st.(promotionsMap) = Some q ∧ q ≤ 0)
     ∨ (∃ other, other ≠ 3 ∧ Map_get other st.(promotionsMap) = Some 0)).
Proof.
  intros matchingRules st.
  assert (mkPromotion "C" 0 ∈ flatPromotions matchingRules) as Hin
    by (vm_compute; apply list_elem_of_further, list_elem_of_here).
  assert (getInternalDocumentId Scenario.engine.(internalDocumentIDStore) "C" = Some 3)
    as Hid by (vm_compute; reflexivity).
  split_and!; [exact Hin|exact Hid|].
  exact (promotion_placed_or_blocked Scenario.engine Scenario.storeE3 (Some "featured")
           (mkPromotion "C" 0) 3 Hin Hid).
Defined.

(** X10: lower position, higher priority: a document is placed at the lowest
    position its promotions ask for whenever no promotion of another document
    asks for that position. *)
Theorem lowest_position_wins orama pinningStore searchTerm promotion internalId :
  let matchingRules := getMatchingRules pinningStore searchTerm in
  let st := resolved orama matchingRules in
  promotion ∈ flatPromotions matchingRules →
  getInternalDocumentId orama.(internalDocumentIDStore) promotion.(doc_id)
  = Some internalId →
  Forall (λ pr, ∀ other,
            getInternalDocumentId orama.(internalDocumentIDStore) pr.(doc_id) = Some other →
            if decide (other = internalId)
            then promotion.(position) ≤ pr.(position)
            else pr.(position) ≠ promotion.(position))
    (flatPromotions matchingRules) →
  Map_get internalId st.(promotionsMap) = Some promotion.(position).
Proof.
  intros matchingRules st Hin Hid Hall. rewrite Forall_forall in Hall.
  destruct (promotion_outcome orama matchingRules promotion internalId Hin Hid)
    as [(q & Hq & Hle)|(other & Hne & Hother)].
  - destruct (resolved_provenance _ _ _ (Map_get_elem_of _ _ _ Hq))
      as (pr & Hpr & Hprid & Hpos). simpl in Hprid, Hpos.
    specialize (Hall _ Hpr _ Hprid). rewrite decide_True in Hall by done.
    unfold st. rewrite Hq. f_equal. lia.
  - exfalso. destruct (resolved_provenance _ _ _ (Map_get_elem_of _ _ _ Hother))
      as (pr & Hpr & Hprid & Hpos). simpl in Hprid, Hpos.
    specialize (Hall _ Hpr _ Hprid). by rewrite decide_False in Hall.
Qed.

Lemma lowest_position_wins_witness :
  let matchingRules := getMatchingRules Scenario.storeTwice (Some "featured") in
  let st := resolved Scenario.engine matchingRules in
  mkPromotion "A" 2 ∈ flatPromotions matchingRules
  ∧ Map_get 1 st.(promotionsMap) = Some 2.
Proof.
  intros matchingRules st.
  assert (flatPromotions matchingRules = [mkPromotion "A" 5; mkPromotion "A" 2]) as Hflat
    by (vm_compute; reflexivity).
  assert (mkPromotion "A" 2 ∈ flatPromotions matchingRules) as Hin
    by (rewrite Hflat; apply list_elem_of_further, list_elem_of_here).
  split; [exact Hin|].
  refine (lowest_position_wins Scenario.engine Scenario.storeTwice (Some "featured")
            (mkPromotion "A" 2) 1 Hin _ _).
  - vm_compute. reflexivity.
  - fold matchingRules. rewrite Hflat.
    repeat (apply Forall_cons; split); [..|by constructor];
      intros other Hother; vm_compute in Hother; injection Hother as <-;
      rewrite decide_True by done; simpl; lia.
Defined.

(** X11: the existence check comes after the conflict resolution, so a
    placed document that is then dropped (it is neither in the organic list
    nor in the document store) still holds its position: no surviving pin has
    that position. *)
Theorem dropped_pin_holds_position orama pinningStore uniqueDocsArray searchTerm
    internalId p ts :
  let st := resolved orama (getMatchingRules pinningStore searchTerm) in
  Map_get internalId st.(promotionsMap) = Some p →
  internalId ∉ uniqueDocsArray.*1 →
  documentsStore_get orama.(docs) internalId = None →
  ts ∈ pinnedResults orama st uniqueDocsArray →
  Map_get ts.1 st.(promotionsMap) ≠ Some p.
Proof.
  intros st Hget Hout Hdoc Hts Hsame.
  assert (consistent st) as Hst by apply resolved_consistent.
  pose proof (Map_get_inj _ _ _ _ (consistent_values st Hst) Hsame Hget) as Heq.
  apply pinnedResults_elem_of in Hts as (q & _ & Hpin). rewrite Heq in Hpin.
  rewrite pin_entry_outside in Hpin by done. by rewrite Hdoc in Hpin.
Qed.

Lemma dropped_pin_holds_position_witness :
  let st := resolved Scenario.engine (getMatchingRules storeBlocked (Some "featured")) in
  Map_get 6 st.(promotionsMap) = Some 0
  ∧ (6 ∉ Scenario.organic.*1)
  ∧ documentsStore_get Scenario.engine.(docs) 6 = None
  ∧ (3, 999999%Z) ∈ pinnedResults Scenario.engine st Scenario.organic
  ∧ Map_get 3 st.(promotionsMap) ≠ Some 0.
Proof.
  intros st.
  assert (Map_get 6 st.(promotionsMap) = Some 0) as Hget by (vm_compute; reflexivity).
  assert (6 ∉ Scenario.organic.*1) as Hout
    by (apply (bool_decide_unpack (_ ∉ _)); vm_compute; exact I).
  assert (documentsStore_get Scenario.engine.(docs) 6 = None) as Hdoc
    by (vm_compute; reflexivity).
  assert ((3, 999999%Z) ∈ pinnedResults Scenario.engine st Scenario.organic) as Hts
    by (vm_compute; apply list_elem_of_here).
  split_and!; [exact Hget|exact Hout|exact Hdoc|exact Hts|].
  exact (dropped_pin_holds_position Scenario.engine storeBlocked Scenario.organic
           (Some "featured") 6 0 (3, 999999%Z) Hget Hout Hdoc Hts).
Defined.

(** ** Applying the splicer to its own output *)

Section same_documents.
Local Abbreviation idview pins :=
  ((λ e : nat * TokenScore, (e.1, e.2.1)) <$> pins).

Lemma Map_get_idview (pins pins' : list (nat * TokenScore)) cur :
  idview pins = idview pins' →
  fst <$> Map_get cur pins = fst <$> Map_get cur pins'.
Proof.
  revert pins'. induction pins as [|[p t] pins IH]; intros [|[p' t'] pins'] Heq;
    simpl in *; try done.
  injection Heq as -> Ht Heq. destruct (decide (cur = p')); simpl; [by f_equal|auto].
Qed.

Lemma merge_from_idview (pins pins' : list (nat * TokenScore)) fuel cur unpinned :
  idview pins = idview pins' →
  (merge_from pins fuel cur unpinned).*1 = (merge_from pins' fuel cur unpinned).*1.
Proof.
  intros Heq. revert cur unpinned.
  induction fuel as [|fuel IH]; intros cur unpinned; simpl; [done|].
  pose proof (Map_get_idview pins pins' cur Heq) as Hget.
  destruct (Map_get cur pins) as [t|], (Map_get cur pins') as [t'|];
    simpl in Hget; try done.
  - injection Hget as Ht. simpl. by rewrite Ht, IH.
  - destruct unpinned as [|u rest]; simpl; [done|]. by rewrite IH.
Qed.

Lemma pins_from_idview (pins pins' : list (nat * TokenScore)) c :
  idview pins = idview pins' →
  ((pins_from pins c).*2).*1 = ((pins_from pins' c).*2).*1.
Proof.
  unfold pins_from. revert pins'.
  induction pins as [|[p t] pins IH]; intros [|[p' t'] pins'] Heq; simpl in *; try done.
  injection Heq as -> Ht Heq. rewrite !filter_cons. simpl.
  destruct (decide (c ≤ p')); simpl; [rewrite Ht; f_equal|]; by apply IH.
Qed.

Lemma sort_insert_ids st (a a' : TokenScore) (l l' : list TokenScore) :
  a.1 = a'.1 → l.*1 = l'.*1 →
  (sort_insert (pinned_le st) a l).*1 = (sort_insert (pinned_le st) a' l').*1.
Proof.
  intros Ha. revert l'.
  induction l as [|y l IH]; intros [|y' l'] Heq; simpl in *; try done.
  - by rewrite Ha.
  - injection Heq as Hy Heq. unfold pinned_le at 1 3. rewrite Ha, Hy.
    destruct (position_le _ _); simpl.
    + by rewrite Ha, Hy, Heq.
    + rewrite Hy. f_equal. by apply IH.
Qed.

Lemma Array_sort_ids st (l l' : list TokenScore) :
  l.*1 = l'.*1 →
  (Array_sort (pinned_le st) l).*1 = (Array_sort (pinned_le st) l').*1.
Proof.
  revert l'. induction l as [|x l IH]; intros [|x' l'] Heq; simpl in *; try done.
  injection Heq as Hx Heq. apply sort_insert_ids; [done|by apply IH].
Qed.

Lemma pinsOf_idview st (l l' : list TokenScore) :
  l.*1 = l'.*1 → idview (pinsOf st l) = idview (pinsOf st l').
Proof.
  unfold pinsOf. revert l'.
  induction l as [|x l IH]; intros [|x' l'] Heq; simpl in *; try done.
  injection Heq as Hx Heq. rewrite Hx. f_equal. by apply IH.
Qed.

Lemma pin_entry_is_Some orama (l : list TokenScore) internalId p :
  is_Some (pin_entry orama l (internalId, p)) ↔
  internalId ∈ l.*1 ∨ is_Some (documentsStore_get orama.(docs) internalId).
Proof.
  destruct (decide (internalId ∈ l.*1)) as [Hin|Hout].
  - rewrite pin_entry_organic by done. split; [by left|by eexists].
  - rewrite pin_entry_outside by done.
    destruct (documentsStore_get _ _) as [doc|].
    + split; intros _; [right|]; by eexists.
    + split; [by intros [? ?]|]. intros [?|[? ?]]; done.
Qed.

Lemma pinnedResults_ids orama st (l l' : list TokenScore) :
  Forall (λ e, is_Some (pin_entry orama l e) ↔ is_Some (pin_entry orama l' e))
    st.(promotionsMap) →
  (pinnedResults orama st l).*1 = (pinnedResults orama st l').*1.
Proof.
  unfold pinnedResults. induction 1 as [|e m He _ IH]; simpl; [done|].
  destruct (pin_entry orama l e) as [ts|] eqn:Hl,
           (pin_entry orama l' e) as [ts'|] eqn:Hl'; simpl.
  - rewrite (pin_entry_id _ _ _ _ Hl), (pin_entry_id _ _ _ _ Hl'). by f_equal.
  - destruct He as [He _]. by destruct He.
  - destruct He as [_ He]. by destruct He.
  - done.
Qed.

(** X12: applying the splicer to its own output, with the same query, store
    and engine, gives the same documents in the same order. *)
Theorem reapplication_keeps_order orama pinningStore uniqueDocsArray searchTerm :
  let out := applyPinningRules orama pinningStore uniqueDocsArray searchTerm in
  (applyPinningRules orama pinningStore out searchTerm).*1 = out.*1.
Proof.
  intros out.
  set (st := resolved orama (getMatchingRules pinningStore searchTerm)).
  assert (consistent st) as Hst by apply resolved_consistent.
  assert (out = splice orama st uniqueDocsArray) as Hout
    by apply applyPinningRules_splice.
  (* the unpinned results are the same *)
  assert (unpinnedResults st out = unpinnedResults st uniqueDocsArray) as Hunp.
  { rewrite Hout. by apply splice_unpinned. }
  (* the same pins survive *)
  assert ((pinnedResults orama st out).*1 = (pinnedResults orama st uniqueDocsArray).*1)
    as Hpinned.
  { apply pinnedResults_ids, Forall_forall. intros [i p] He.
    rewrite !pin_entry_is_Some.
    assert (i ∈ out.*1 → i ∈ uniqueDocsArray.*1
                          ∨ is_Some (documentsStore_get orama.(docs) i)) as Hback.
    { intros (ts & -> & Hts)%list_elem_of_fmap.
      rewrite Hout, (splice_Permutation orama st uniqueDocsArray Hst) in Hts.
      apply elem_of_app in Hts as [Hts|Hts].
      - left. apply list_elem_of_filter in Hts as [_ Hts]. by apply list_elem_of_fmap_2.
      - apply pinnedResults_elem_of in Hts as (q & _ & Hpin).
        apply (pin_entry_is_Some orama uniqueDocsArray ts.1 q). by eexists. }
    split; [intros [?|?]; [by apply Hback|by right]|].
    intros [?|?]; [left|by right]. by apply organic_id_kept. }
  assert (idview (placedPins orama st out) = idview (placedPins orama st uniqueDocsArray))
    as Hpins by (by apply pinsOf_idview, Array_sort_ids).
  assert (length (sortedPinnedResults orama st out)
          = length (sortedPinnedResults orama st uniqueDocsArray)) as Hlen.
  { unfold sortedPinnedResults. rewrite !Array_sort_length.
    apply (f_equal length) in Hpinned. by rewrite !length_fmap in Hpinned. }
  assert ((walked orama st out).*1 = (walked orama st uniqueDocsArray).*1) as Hwalked.
  { rewrite !walked_merge_from by done. rewrite Hunp, Hlen.
    by apply merge_from_idview. }
  rewrite applyPinningRules_splice. fold st.
  trans (splice orama st uniqueDocsArray).*1; [|by rewrite Hout].
  rewrite (splice_walked orama st out Hst), (splice_walked orama st uniqueDocsArray Hst).
  rewrite !fmap_app, Hwalked. f_equal.
  assert (length (walked orama st out) = length (walked orama st uniqueDocsArray)) as ->.
  { apply (f_equal length) in Hwalked. by rewrite !length_fmap in Hwalked. }
  by apply pins_from_idview.
Qed.
End same_documents.

(** ** The search box wrapper *)

Lemma prefix_append p b : String.prefix p (p +:+ b) = true.
Proof.
  induction p as [|c p IH]; simpl; [by destruct b|].
  destruct (Ascii.ascii_dec c c); [done|congruence].
Qed.

Lemma prefix_inv p q : String.prefix p q = true → ∃ b, q = (p +:+ b)%string.
Proof.
  revert q. induction p as [|c p IH]; intros q; simpl.
  - intros _. by exists q.
  - destruct q as [|c' q]; simpl; [done|].
    destruct (Ascii.ascii_dec c c') as [->|]; [|done].
    intros [b ->]%IH. by exists b.
Qed.

(** [str_contains] is the substring test. *)
Lemma str_contains_occurs p q : str_contains p q = true ↔ occurs p q.
Proof.
  unfold occurs. induction q as [|c q IH].
  - change (str_contains p "") with (String.prefix p "" || false).
    rewrite orb_false_r. split.
    + intros [b ->]%prefix_inv. by exists ""%string, b.
    + intros (a & b & Heq). destruct a; [|done].
      change (""%string = (p +:+ b)%string) in Heq. by destruct p.
  - change (str_contains p (String c q))
      with (String.prefix p (String c q) || str_contains p q).
    rewrite orb_true_iff, IH. split.
    + intros [[b Hb]%prefix_inv|(a & b & ->)].
      * exists ""%string, b. by rewrite Hb.
      * by exists (String c a), b.
    + intros (a & b & Heq). destruct a as [|c' a].
      * left. change (String c q = (p +:+ b)%string) in Heq.
        rewrite Heq. apply prefix_append.
      * right. change (String c q = String c' (a +:+ p +:+ b)%string) in Heq.
        injection Heq as -> ->. by exists a, b.
Qed.

Lemma str_contains_empty q : str_contains "" q = true.
Proof. by destruct q. Qed.

Lemma truthy_Some s : truthy (Some s) = true ↔ s ≠ ""%string.
Proof.
  simpl. rewrite negb_true_iff. split.
  - intros Hs ->. done.
  - intros Hs. by apply String.eqb_neq.
Qed.

(** X13: the wrapper renders the search box without documentation exactly
    when there is no docs instance or the id of the first docs instance is
    the empty string. *)
Theorem wrapper_without_docs pathname docsInstances :
  OramaSearchWrapper pathname docsInstances = OramaSearchNoDocs ↔
  docsInstances = [] ∨ head docsInstances = Some ""%string.
Proof.
  unfold OramaSearchWrapper. destruct docsInstances as [|d rest]; simpl.
  - split; [by left|done].
  - destruct (String.eqb_spec d "") as [->|Hd].
    + rewrite str_contains_empty. simpl. split; [by right|done].
    + assert (truthy (Some d) = true) as Hdt by by apply truthy_Some.
      split; [|by intros [?|[= ?]]].
      unfold js_or.
      destruct (truthy (head _)) eqn:Hfirst.
      * rewrite Hfirst. by destruct (head _).
      * by rewrite Hdt.
Qed.

(** X14: the docs instance whose id is the first, in the order of
    [docsInstances], to occur in the pathname is selected, when that id is
    not empty. *)
Theorem wrapper_first_match pathname before pluginId after :
  Forall (λ id, ¬ occurs id pathname) before →
  occurs pluginId pathname →
  pluginId ≠ ""%string →
  OramaSearchWrapper pathname (before ++ pluginId :: after)
  = OramaSearchWithDocs pluginId.
Proof.
  intros Hbefore Hocc Hne. unfold OramaSearchWrapper.
  assert (List.filter (fun id => str_contains id pathname) (before ++ pluginId :: after)
          = pluginId :: List.filter (fun id => str_contains id pathname) after) as ->.
  { rewrite List.filter_app. simpl.
    rewrite (proj2 (str_contains_occurs _ _) Hocc).
    replace (List.filter _ before) with (@nil string); [done|].
    symmetry. induction Hbefore as [|x l Hx _ IH]; simpl; [done|].
    destruct (str_contains x pathname) eqn:Hc; [|done].
    by apply str_contains_occurs in Hc. }
  simpl. unfold js_or.
  by rewrite (proj2 (truthy_Some pluginId) Hne), (proj2 (truthy_Some pluginId) Hne).
Qed.

Lemma wrapper_first_match_witness :
  Forall (λ id, ¬ occurs id "/community/intro") ["docs"; "api"]
  ∧ occurs "community" "/community/intro"
  ∧ OramaSearchWrapper "/community/intro" (["docs"; "api"] ++ "community" :: ["blog"])
    = OramaSearchWithDocs "community".
Proof.
  assert (Forall (λ id, ¬ occurs id "/community/intro") ["docs"; "api"]) as Hbefore.
  { repeat constructor; intros Hocc%str_contains_occurs; vm_compute in Hocc; done. }
  assert (occurs "community" "/community/intro") as Hocc
    by (apply str_contains_occurs; vm_compute; reflexivity).
  split_and!; [exact Hbefore|exact Hocc|].
  apply (wrapper_first_match _ _ _ _ Hbefore Hocc). done.
Defined.

(** X15: when the id of no docs instance occurs in the pathname, the wrapper
    falls back to the first docs instance. *)
Theorem wrapper_fallback pathname first rest :
  Forall (λ id, ¬ occurs id pathname) (first :: rest) →
  OramaSearchWrapper pathname (first :: rest) = OramaSearchWithDocs first.
Proof.
  intros Hnone. unfold OramaSearchWrapper.
  assert (first ≠ ""%string) as Hne.
  { intros ->. apply Forall_cons in Hnone as [Hfirst _]. apply Hfirst.
    apply str_contains_occurs, str_contains_empty. }
  replace (List.filter (fun id => str_contains id pathname) (first :: rest))
    with (@nil string).
  - assert (truthy (Some first) = true) as Ht by by apply truthy_Some.
    cbv zeta. change (js_or (head []) (head (first :: rest))) with (Some first).
    by rewrite Ht.
  - symmetry. induction Hnone as [|x l Hx _ IH]; simpl; [done|].
    destruct (str_contains x pathname) eqn:Hc; [|done].
    by apply str_contains_occurs in Hc.
Qed.

Lemma wrapper_fallback_witness :
  Forall (λ id, ¬ occurs id "/blog/post") ["docs"; "api"]
  ∧ OramaSearchWrapper "/blog/post" ["docs"; "api"] = OramaSearchWithDocs "docs".
Proof.
  assert (Forall (λ id, ¬ occurs id "/blog/post") ["docs"; "api"]) as Hnone.
  { repeat constructor; intros Hocc%str_contains_occurs; vm_compute in Hocc; done. }
  split; [exact Hnone|]. exact (wrapper_fallback _ _ _ Hnone).
Defined.

(** ** The exports table of the stemmers build *)

Lemma append_inj_r (p a b : string) : (p +:+ a = p +:+ b)%string → a = b.
Proof. induction p as [|c p IH]; simpl; [done|]. intros [= ?]. auto. Qed.

Lemma find_app {A} (f : A → bool) (l1 l2 : list A) :
  List.find f (l1 ++ l2)
  = match List.find f l1 with Some x => Some x | None => List.find f l2 end.
Proof. induction l1 as [|x l1 IH]; simpl; [done|]. by destruct (f x). Qed.

Lemma fold_insert_lookup {A K V} `{Countable K} (k : A → K) (v : A → V)
    (l : list A) (m : gmap K V) (key : K) :
  fold_left (λ m a, <[k a := v a]> m) l m !! key
  = match List.find (λ a, bool_decide (k a = key)) (rev l) with
    | Some a => Some (v a)
    | None => m !! key
    end.
Proof.
  revert m. induction l as [|a l IH]; intros m; [done|].
  change (fold_left (λ m a, <[k a := v a]> m) (a :: l) m)
    with (fold_left (λ m a, <[k a := v a]> m) l (<[k a := v a]> m)).
  change (rev (a :: l)) with (rev l ++ [a]).
  rewrite IH, find_app.
  destruct (List.find _ (rev l)); [done|].
  change (List.find (λ a, bool_decide (k a = key)) [a])
    with (if bool_decide (k a = key) then Some a else None).
  case_bool_decide as Hk.
  - by rewrite Hk, lookup_insert_eq.
  - by rewrite lookup_insert_ne.
Qed.

Lemma buildExports_lookup table key :
  buildExports table !! key
  = match List.find (λ entry, bool_decide (("./" +:+ entry.1)%string = key)) (rev table) with
    | Some entry => Some (exportEntry entry.2)
    | None => None
    end.
Proof.
  unfold buildExports.
  rewrite (fold_insert_lookup (λ entry : string * string, ("./" +:+ entry.1)%string)
             (λ entry, exportEntry entry.2)).
  by rewrite lookup_empty.
Qed.

(** X16: when no language is listed twice, the exports object has, for each
    listed language, under the key [./<language>], the three paths built from
    the short code of that language, and it has no other key. *)
Theorem exports_of_each_language table :
  NoDup table.*1 →
  (∀ long short, (long, short) ∈ table →
     buildExports table !! ("./" +:+ long)%string = Some (exportEntry short))
  ∧ (∀ key, is_Some (buildExports table !! key) →
       ∃ long, long ∈ table.*1 ∧ key = ("./" +:+ long)%string).
Proof.
  intros Hnd. split.
  - intros long short Hin. rewrite buildExports_lookup.
    destruct (List.find _ (rev table)) as [[long' short']|] eqn:Hfind.
    + apply List.find_some in Hfind as [Hin' Heq].
      apply bool_decide_eq_true_1, append_inj_r in Heq. simpl in Heq. subst long'.
      apply (proj2 (List.in_rev _ _)), (proj2 (list_elem_of_In _ _)) in Hin'.
      simpl. f_equal. f_equal.
      assert (Map_get long table = Some short') as H1 by by apply Map_get_Some.
      assert (Map_get long table = Some short) as H2 by by apply Map_get_Some.
      congruence.
    + exfalso.
      assert (bool_decide (("./" +:+ (long, short).1)%string = ("./" +:+ long)%string)
              = false) as Hno.
      { apply (List.find_none _ _ Hfind (long, short)).
        apply (proj1 (List.in_rev _ _)). by apply (proj1 (list_elem_of_In _ _)). }
      by apply bool_decide_eq_false_1 in Hno.
  - intros key. rewrite buildExports_lookup.
    destruct (List.find _ (rev table)) as [[long short]|] eqn:Hfind.
    + intros _. apply List.find_some in Hfind as [Hin Heq].
      apply bool_decide_eq_true_1 in Heq. simpl in Heq.
      apply (proj2 (List.in_rev _ _)), (proj2 (list_elem_of_In _ _)) in Hin.
      exists long. split; [by apply (list_elem_of_fmap_2 fst _ (long, short))|done].
    + by intros [? ?].
Qed.

Lemma exports_of_each_language_witness :
  NoDup stemmers.*1
  ∧ buildExports stemmers !! "./english"%string = Some (exportEntry "en")
  ∧ buildExports stemmers !! "./slovenian"%string = None.
Proof.
  assert (NoDup stemmers.*1) as Hnd
    by (apply (bool_decide_unpack (NoDup _)); vm_compute; exact I).
  destruct (exports_of_each_language stemmers Hnd) as [Hlookup Hkeys].
  split_and!; [exact Hnd| |].
  - apply (Hlookup "english" "en")%string.
    apply (bool_decide_unpack (_ ∈ _)). vm_compute. exact I.
  - destruct (buildExports stemmers !! "./slovenian"%string) eqn:Hs; [|done].
    exfalso. destruct (Hkeys "./slovenian"%string) as (long & Hin & Heq);
      [by rewrite Hs|].
    apply (append_inj_r "./" "slovenian" long) in Heq. subst long.
    revert Hin. apply (bool_decide_unpack (_ ∉ _)). vm_compute. exact I.
Defined.

(** ** A document promoted more than once, and two documents after one
    position *)




(** C1, as the code has it: the conflicts are resolved over the flattened
    promotions stably sorted by ascending position. When two promotions of
    different documents, both resolving, ask for the same position, the
    earlier one in the flattened order takes the position and the later one
    is skipped (processing it leaves the placement, the pinned set and the
    taken set as they are, so its document does not get the position),
    provided that no promotion before the earlier one that asks for this
    position resolves, and that the document of the earlier one is not also
    promoted to a smaller position. *)
Theorem first_promotion_wins orama matchingRules l1 a l2 b l3 idA idB :
  flatPromotions matchingRules = l1 ++ a :: l2 ++ b :: l3 →
  position a = position b →
  getInternalDocumentId orama.(internalDocumentIDStore) a.(doc_id) = Some idA →
  getInternalDocumentId orama.(internalDocumentIDStore) b.(doc_id) = Some idB →
  idA ≠ idB →
  Forall (λ pr, position pr = position a →
                getInternalDocumentId orama.(internalDocumentIDStore) pr.(doc_id) = None) l1 →
  Forall (λ pr, getInternalDocumentId orama.(internalDocumentIDStore) pr.(doc_id) = Some idA →
                position a ≤ position pr) (flatPromotions matchingRules) →
  let st := resolved orama matchingRules in
  Map_get idA st.(promotionsMap) = Some (position a)
  ∧ position a ∈ st.(positionsTaken)
  ∧ Map_get idB st.(promotionsMap) ≠ Some (position a)
  ∧ (∀ before after,
       allPromotions matchingRules = before ++ b :: after →
       resolve_step orama (resolve_promotions orama before initialPinState) b
       = resolve_promotions orama before initialPinState).
Proof.
  intros Hflat Hpos HidA HidB Hne Hfirst Hlowest st.
  rewrite Forall_forall in Hfirst, Hlowest.
  destruct (Array_sort_split l1 a (l2 ++ b :: l3)) as (S1 & S2 & Hsort & HS1).
  rewrite <-Hflat in Hsort. fold (allPromotions matchingRules) in Hsort.
  rewrite Forall_forall in HS1.
  pose proof (allPromotions_sorted matchingRules) as Hsorted. rewrite Hsort in Hsorted.
  destruct (resolve_prefix orama _ _ _ Hsorted) as [Hst1 Hbelow1].
  destruct (resolve_suffix orama _ _ _ Hsorted) as (HS2 & Hst2 & Hbelow2).
  set (st1 := resolve_promotions orama S1 initialPinState) in *.
  (* nothing placed so far holds the document or the position *)
  assert (∀ e, e ∈ st1.(promotionsMap) → e.1 ≠ idA ∧ e.2 ≠ position a) as Hfree.
  { intros e [Hin|(pr & Hpr & Hid & Hp)]%resolve_promotions_provenance;
      [by apply elem_of_nil in Hin|].
    assert (pr ∈ flatPromotions matchingRules) as Hprflat
      by (rewrite <-allPromotions_Permutation, Hsort, elem_of_app; by left).
    destruct (HS1 _ Hpr) as [Hlt|[Heq Hl1]].
    - split; [|lia]. intros Heq. rewrite Heq in Hid.
      specialize (Hlowest _ Hprflat Hid). lia.
    - specialize (Hfirst _ Hl1 Heq). congruence. }
  (* so the earlier promotion takes the position *)
  assert (Map_get idA (resolve_step orama st1 a).(promotionsMap) = Some (position a))
    as Hplaced.
  { assert (Map_get idA st1.(promotionsMap) = None) as HgetA.
    { apply Map_get_None. intros (e & Heq & He)%list_elem_of_fmap.
      destruct (Hfree e He) as [Hn _]. by apply Hn. }
    assert (position a ∉ st1.(positionsTaken)) as Htaken.
    { rewrite (consistent_taken st1 Hst1). intros (e & Heq & He)%list_elem_of_fmap.
      destruct (Hfree e He) as [_ Hn]. by apply Hn. }
    unfold resolve_step. rewrite HidA, HgetA, bool_decide_eq_false_2 by done.
    apply Map_get_set_eq. }
  (* and keeps it through any further promotions of the sorted list *)
  assert (∀ S2' rest, S2 = S2' ++ rest →
            Map_get idA (resolve_promotions orama (S1 ++ a :: S2') initialPinState)
                          .(promotionsMap) = Some (position a)) as Hkeeps.
  { intros S2' rest ->. unfold resolve_promotions. rewrite fold_left_app. simpl.
    apply resolve_promotions_keeps; [|done| |done].
    - by apply StronglySorted_app_1_l in HS2.
    - by apply Forall_app in Hbelow2 as [? _]. }
  assert (allPromotions matchingRules = (S1 ++ a :: S2) ++ []) as Hall
    by by rewrite app_nil_r.
  assert (consistent st) as Hst by apply resolved_consistent.
  assert (Map_get idA st.(promotionsMap) = Some (position a)) as HA.
  { unfold st, resolved. rewrite Hsort. by apply (Hkeeps S2 []), eq_sym, app_nil_r. }
  split_and!.
  - done.
  - apply (consistent_taken st Hst).
    by apply (list_elem_of_fmap_2 snd _ (idA, position a)), Map_get_elem_of.
  - intros HB. apply Hne. by apply (Map_get_inj _ _ _ _ (consistent_values st Hst) HA HB).
  - intros before after Hsplit.
    pose proof (allPromotions_sorted matchingRules) as Hsorted'.
    rewrite Hsplit in Hsorted'.
    destruct (resolve_prefix orama _ _ _ Hsorted') as [Hstb Hbelowb].
    (* this occurrence of the later promotion comes after the earlier one *)
    assert (∃ S2' rest, S2 = S2' ++ rest ∧ before = S1 ++ a :: S2') as (S2' & rest & HS2' & ->).
    { rewrite Hsort in Hsplit. symmetry in Hsplit.
      apply List.app_eq_app in Hsplit as [l [[-> Hl]|[Hl1 Hl]]].
      - destruct l as [|x l]; simpl in Hl.
        + injection Hl as Hab _. rewrite Hab in HidA. congruence.
        + injection Hl as -> ->. by exists l, (b :: after).
      - exfalso. assert (b ∈ S1) as HbS1.
        { rewrite Hl1. destruct l as [|x l]; simpl in Hl.
          - injection Hl as Hab _. rewrite Hab in HidB. congruence.
          - injection Hl as <- _. rewrite elem_of_app. right. apply list_elem_of_here. }
        destruct (HS1 _ HbS1) as [Hlt|[Heq Hl1']]; [lia|].
        specialize (Hfirst _ Hl1' Heq). congruence. }
    pose proof (Hkeeps S2' rest HS2') as HAb.
    set (stb := resolve_promotions orama (S1 ++ a :: S2') initialPinState) in *.
    unfold resolve_step. rewrite HidB.
    destruct (Map_get idB stb.(promotionsMap)) as [existingPosition|] eqn:HgetB.
    + by rewrite (proj2 (Nat.ltb_ge _ _) (placed_below_get _ _ _ _ Hbelowb HgetB)).
    + rewrite bool_decide_eq_true_2; [done|].
      rewrite <-Hpos. apply (consistent_taken stb Hstb).
      by apply (list_elem_of_fmap_2 snd _ (idA, position a)), Map_get_elem_of.
Qed.

Lemma first_promotion_wins_witness :
  let matchingRules := getMatchingRules Scenario.storeE3 (Some "featured") in
  let st := resolved Scenario.engine matchingRules in
  flatPromotions matchingRules = [] ++ mkPromotion "B" 0 :: [] ++ mkPromotion "C" 0 :: []
  ∧ Map_get 2 st.(promotionsMap) = Some 0
  ∧ 0 ∈ st.(positionsTaken)
  ∧ Map_get 3 st.(promotionsMap) ≠ Some 0
  ∧ (∀ before after,
       allPromotions matchingRules = before ++ mkPromotion "C" 0 :: after →
       resolve_step Scenario.engine
         (resolve_promotions Scenario.engine before initialPinState) (mkPromotion "C" 0)
       = resolve_promotions Scenario.engine before initialPinState).
Proof.
  intros matchingRules st.
  assert (flatPromotions matchingRules
          = [] ++ mkPromotion "B" 0 :: [] ++ mkPromotion "C" 0 :: []) as Hflat
    by (vm_compute; reflexivity).
  split; [exact Hflat|].
  refine (first_promotion_wins Scenario.engine matchingRules
            [] (mkPromotion "B" 0) [] (mkPromotion "C" 0) [] 2 3 Hflat _ _ _ _ _ _).
  - reflexivity.
  - vm_compute. reflexivity.
  - vm_compute. reflexivity.
  - lia.
  - constructor.
  - rewrite Hflat. simpl. repeat constructor; simpl; lia.
Defined.
